(** * mapreader: position and bearing of a triangular pointer on a map

    A shallow embedding of [mapreader.py].  The script segments a map
    from its background, orders the four corners of the map, warps the
    image so that the map becomes an axis-aligned rectangle, finds the
    three corners of the pointer and derives the normalised position of
    its tip and the direction it points to.

    Numbers.  The corners delivered by OpenCV are integer pixel
    coordinates (numpy [int32] entries of the contour arrays); they are
    modelled in [Z].  Where the script squares differences of
    coordinates, in [distance_of_points] on the corners of the pointer,
    the wrap-around of [int32] is written out; the other integer
    operations of the script (sums, differences and comparisons of
    pixel coordinates) stay far from the 32-bit range.  The
    floating-point values of the script are modelled by exact numbers:
    rationals ([Q]) where the script only adds, multiplies and divides,
    reals ([R]) for [numpy.sqrt] and [math.atan].  What IEEE arithmetic
    does on a zero divisor and on the root of a negative number is
    kept: numpy scalars do not raise there, they yield an infinity or a
    NaN. *)

From Stdlib Require Import String ZArith QArith Qabs Reals Psatz List Bool.
From Stdlib Require Import Permutation.

Import ListNotations.

Open Scope Z_scope.

(** ** Numeric values *)

Definition Point : Type := (Z * Z)%type.

Definition px (p : Point) : Z := fst p.
Definition py (p : Point) : Z := snd p.

(** A numpy [float64] scalar: a finite value, an infinity or a NaN. *)
Inductive npfloat : Type :=
| Fin (q : Q)
| PInf
| NInf
| NaN.

Definition Qis_zero (q : Q) : bool := Qnum q =? 0.
Definition Qis_neg (q : Q) : bool := Qnum q <? 0.
Definition Qis_pos (q : Q) : bool := 0 <? Qnum q.

(** Conversion of an integer scalar to [float64]. *)
Definition of_int (n : Z) : npfloat := Fin (inject_Z n).

Definition fneg (a : npfloat) : npfloat :=
  match a with
  | Fin q => Fin (- q)
  | PInf => NInf
  | NInf => PInf
  | NaN => NaN
  end.

Definition fadd (a b : npfloat) : npfloat :=
  match a, b with
  | NaN, _ | _, NaN => NaN
  | Fin x, Fin y => Fin (x + y)
  | PInf, NInf | NInf, PInf => NaN
  | PInf, _ | _, PInf => PInf
  | NInf, _ | _, NInf => NInf
  end.

Definition fsub (a b : npfloat) : npfloat := fadd a (fneg b).

(** Sign of a product or quotient one of whose sides is infinite. *)
Definition signed_inf (negative : bool) : npfloat :=
  if negative then NInf else PInf.

Definition fis_neg (a : npfloat) : bool :=
  match a with
  | Fin q => Qis_neg q
  | NInf => true
  | PInf | NaN => false
  end.

Definition fis_zero (a : npfloat) : bool :=
  match a with
  | Fin q => Qis_zero q
  | _ => false
  end.

Definition fmul (a b : npfloat) : npfloat :=
  match a, b with
  | NaN, _ | _, NaN => NaN
  | Fin x, Fin y => Fin (x * y)
  | _, _ =>
      if fis_zero a || fis_zero b then NaN
      else signed_inf (xorb (fis_neg a) (fis_neg b))
  end.

(** True division of [float64] scalars.  A zero divisor does not raise:
    the quotient is an infinity with the sign of the dividend, or a NaN
    when the dividend is zero as well.  (The zero divisors the script
    can produce are positive zeros: an integer zero converted to
    [float64], or a sum [1 + (-1)].) *)
Definition fdiv (a b : npfloat) : npfloat :=
  match a, b with
  | NaN, _ | _, NaN => NaN
  | Fin x, Fin y =>
      if Qis_zero y then
        (if Qis_pos x then PInf else if Qis_neg x then NInf else NaN)
      else Fin (x / y)
  | Fin _, _ => Fin 0
  | _, Fin y => signed_inf (xorb (fis_neg a) (Qis_neg y))
  | _, _ => NaN
  end.

(** [a < 0] on [float64]; false on a NaN. *)
Definition flt0 (a : npfloat) : bool := fis_neg a.

(** True division of two integer scalars, as numpy does it: both are
    converted to [float64] first. *)
Definition int_true_divide (n d : Z) : npfloat := fdiv (of_int n) (of_int d).

(** Python's [int()] on a finite value: truncation toward zero. *)
Definition py_int (q : Q) : Z := Z.quot (Qnum q) (Zpos (Qden q)).

(** ** [get_slope] *)

Definition get_slope (x1 y1 x2 y2 : Z) : npfloat :=
  let x2 := if x2 =? x1 then x2 + 1 else x2 in
  int_true_divide (y2 - y1) (x2 - x1).

(** ** Direction of the pointer (lines 254 to 286 of the script) *)

(** The angle in degrees: a real number or a NaN. *)
Inductive degrees_val : Type :=
| Deg (r : R)
| DegNaN.

(** [math.degrees (abs (math.atan t))].  [math.atan] of an infinity is
    a right angle. *)
Definition atan_abs_degrees (t : npfloat) : degrees_val :=
  match t with
  | Fin q => Deg (Rabs (atan (Q2R q)) * (180 / PI))
  | PInf | NInf => Deg (Rabs (PI / 2) * (180 / PI))
  | NaN => DegNaN
  end.

Definition deg_add (d : degrees_val) (k : Z) : degrees_val :=
  match d with
  | Deg r => Deg (r + IZR k)
  | DegNaN => DegNaN
  end.

Definition north_slope (mid_x mid_y map_width : Z) : npfloat :=
  get_slope (mid_x + 1) (mid_y + 1) (mid_x + 1) map_width.

Definition pointer_slope (xpos ypos mid_x mid_y : Z) : npfloat :=
  get_slope xpos ypos (mid_x + 1) (mid_y + 1).

(** The two slopes are [float64] scalars of numpy ([xpos], [ypos] and
    [map_width] are entries of contour arrays), so the quotient below
    is numpy's: where [1 + north_slope * pointer_slope] is zero it is
    an infinity, with a warning and without [ZeroDivisionError].  The
    slopes are taken as exact rationals; in [float64] a product that
    should be -1 can miss it by one rounding, and the tangent is then
    huge instead of infinite. *)
Definition angle_tangent (xpos ypos mid_x mid_y map_width : Z) : npfloat :=
  let n := north_slope mid_x mid_y map_width in
  let p := pointer_slope xpos ypos mid_x mid_y in
  fdiv (fsub n p) (fadd (of_int 1) (fmul n p)).

Definition pointer_dirr (xpos ypos mid_x mid_y map_width : Z) : degrees_val :=
  atan_abs_degrees (angle_tangent xpos ypos mid_x mid_y map_width).

(** The number of degrees the [if] of lines 278 to 284 adds to
    [pointer_dirr]; 0 where no branch is taken. *)
Definition quadrant_correction
    (xpos ypos mid_x mid_y : Z) (tangent : npfloat) : Z :=
  if mid_x >? xpos then
    if mid_y <? ypos then 180
    else if flt0 tangent then 270
    else 180
  else 0.

Definition hdg (xpos ypos mid_x mid_y map_width : Z) : degrees_val :=
  let t := angle_tangent xpos ypos mid_x mid_y map_width in
  let d := atan_abs_degrees t in
  if mid_x >? xpos then
    if mid_y <? ypos then deg_add d 180
    else if flt0 t then deg_add d 270
    else deg_add d 180
  else d.

(** Image coordinates: the origin is the top-left corner, [x] grows to
    the right and [y] grows downward (the script says so before it
    flips [ypos]). *)
Definition left_of (x mid : Z) : Prop := x < mid.
Definition right_of (x mid : Z) : Prop := mid < x.
Definition above (y mid : Z) : Prop := y < mid.
Definition below (y mid : Z) : Prop := mid < y.

(** ** [distance_of_points] *)

(** The exact squared length of the segment from [a] to [b]. *)
Definition sq_dist (a b : Point) : Z :=
  (px a - px b) ^ 2 + (py a - py b) ^ 2.

(** Arithmetic on [int32] scalars wraps around modulo [2 ^ 32]. *)
Definition wrap32 (z : Z) : Z := (z + 2 ^ 31) mod 2 ^ 32 - 2 ^ 31.

(** A [float64] result: a real number, or a NaN. *)
Inductive float64 : Type :=
| F64 (r : R)
| F64NaN.

(** [numpy.sqrt] of an [int32] scalar is a [float64]; on a negative
    number it is a NaN. *)
Definition np_sqrt (z : Z) : float64 :=
  if z <? 0 then F64NaN else F64 (sqrt (IZR z)).

(** [(a[0] - b[0]) ** 2 + (a[1] - b[1]) ** 2] on two rows of a contour:
    the rows hold [int32] numbers, and the differences, the squares and
    their sum are [int32] too. *)
Definition sq_dist_int32 (a b : Point) : Z :=
  wrap32 (wrap32 (wrap32 (px a - px b) ^ 2)
          + wrap32 (wrap32 (py a - py b) ^ 2)).

(** [distance_of_points] as the main program calls it, on the corners
    of the pointer. *)
Definition distance_of_points (a b : Point) : float64 :=
  np_sqrt (sq_dist_int32 a b).

(** [distance_of_points] as [warp_image] calls it, on rows of
    [ordered_list]: these hold [float32] numbers, so nothing wraps.  The
    length is taken as the exact real number: the roundings of
    [float32] are left out.  They do not show in the integer part of
    the length as long as the squares and their sum stay below
    [2 ^ 24], which [float32_safe] ensures. *)
Definition distance_of_points_float32 (a b : Point) : R :=
  sqrt (IZR ((px a - px b) ^ 2 + (py a - py b) ^ 2)).

(** Python's [int()] on a real value: truncation toward zero. *)
Definition R_int (r : R) : Z :=
  if Rle_dec 0 r then Int_part r else - Int_part (- r).

(** Coordinates whose differences have squares, and sums of two
    squares, below [2 ^ 31]: no [int32] operation of
    [distance_of_points] wraps. *)
Definition int32_safe (p : Point) : Prop :=
  0 <= px p < 2 ^ 15 /\ 0 <= py p < 2 ^ 15.


(** ** Tip and base of the pointer (lines 225 to 250 of the script) *)

(** [<] and [==] on [float64]: false as soon as one side is a NaN. *)
Definition f64_lt (a b : float64) : Prop :=
  match a, b with
  | F64 x, F64 y => (x < y)%R
  | _, _ => False
  end.

Definition f64_eq (a b : float64) : Prop :=
  match a, b with
  | F64 x, F64 y => x = y
  | _, _ => False
  end.

Definition f64_lt_dec (a b : float64) : {f64_lt a b} + {~ f64_lt a b} :=
  match a, b return {f64_lt a b} + {~ f64_lt a b} with
  | F64 x, F64 y => Rlt_dec x y
  | F64 _, F64NaN => right (fun H : False => H)
  | F64NaN, _ => right (fun H : False => H)
  end.

Definition f64_eq_dec (a b : float64) : {f64_eq a b} + {~ f64_eq a b} :=
  match a, b return {f64_eq a b} + {~ f64_eq a b} with
  | F64 x, F64 y => Req_dec_T x y
  | F64 _, F64NaN => right (fun H : False => H)
  | F64NaN, _ => right (fun H : False => H)
  end.

(** Python's [min] of three values: the first one, given up for a later
    one only when that one is smaller. *)
Definition min3 (a b c : float64) : float64 :=
  let m := if f64_lt_dec b a then b else a in
  if f64_lt_dec c m then c else m.

(** [(u + v) / 2]: an [int32] sum divided in [float64]. *)
Definition half_sum (u v : Z) : Q := inject_Z (wrap32 (u + v)) / 2.

Record tip_and_mid : Type := {
  xpos : Z;
  ypos : Z;
  mid_x : Z;
  mid_y : Z
}.

Definition pointer_tip (p1 p2 p3 : Point) : tip_and_mid :=
  let dist1 := distance_of_points p1 p2 in
  let dist2 := distance_of_points p1 p3 in
  let dist3 := distance_of_points p2 p3 in
  let min_dist := min3 dist1 dist2 dist3 in
  if f64_eq_dec dist1 min_dist then
    {| xpos := px p3; ypos := py p3;
       mid_x := py_int (half_sum (px p1) (px p2));
       mid_y := py_int (half_sum (py p1) (py p2)) |}
  else if f64_eq_dec dist2 min_dist then
    {| xpos := px p2; ypos := py p2;
       mid_x := py_int (half_sum (px p1) (px p3));
       mid_y := py_int (half_sum (py p1) (py p3)) |}
  else
    {| xpos := px p1; ypos := py p1;
       mid_x := py_int (half_sum (px p3) (px p2));
       mid_y := py_int (half_sum (py p3) (py p2)) |}.

(** The comparisons of two roots made on the numbers under the roots,
    which are integers. *)
Definition root_ltb (u v : Z) : bool := (0 <=? u) && (0 <=? v) && (u <? v).
Definition root_eqb (u v : Z) : bool := (0 <=? u) && (0 <=? v) && (u =? v).

Definition min3_sq (u v w : Z) : Z :=
  let m := if root_ltb v u then v else u in
  if root_ltb w m then w else m.

(** The same selection made on the integers under the roots: the
    executable form of [pointer_tip] (see [pointer_tip_sq_eq]). *)
Definition pointer_tip_sq (p1 p2 p3 : Point) : tip_and_mid :=
  let d1 := sq_dist_int32 p1 p2 in
  let d2 := sq_dist_int32 p1 p3 in
  let d3 := sq_dist_int32 p2 p3 in
  let m := min3_sq d1 d2 d3 in
  if root_eqb d1 m then
    {| xpos := px p3; ypos := py p3;
       mid_x := py_int (half_sum (px p1) (px p2));
       mid_y := py_int (half_sum (py p1) (py p2)) |}
  else if root_eqb d2 m then
    {| xpos := px p2; ypos := py p2;
       mid_x := py_int (half_sum (px p1) (px p3));
       mid_y := py_int (half_sum (py p1) (py p3)) |}
  else
    {| xpos := px p1; ypos := py p1;
       mid_x := py_int (half_sum (px p3) (px p2));
       mid_y := py_int (half_sum (py p3) (py p2)) |}.

(** The tip and the middle when the edge from [a] to [b] is the base
    and [apex] the remaining corner. *)
Definition tip_over_base (apex a b : Point) : tip_and_mid :=
  {| xpos := px apex; ypos := py apex;
     mid_x := (px a + px b) ÷ 2;
     mid_y := (py a + py b) ÷ 2 |}.

(** ** [order_points] *)

(** [numpy.argmin]: the first index at which the minimum is attained. *)
Fixpoint argmin (l : list Z) : nat :=
  match l with
  | [] => 0%nat
  | v :: l' =>
      match l' with
      | [] => 0%nat
      | _ :: _ => let j := argmin l' in
                  if v <=? nth j l' 0 then 0%nat else S j
      end
  end.

(** [numpy.argmax]: the first index at which the maximum is attained. *)
Fixpoint argmax (l : list Z) : nat :=
  match l with
  | [] => 0%nat
  | v :: l' =>
      match l' with
      | [] => 0%nat
      | _ :: _ => let j := argmax l' in
                  if nth j l' 0 <=? v then 0%nat else S j
      end
  end.

(** [points.sum(axis=1)] and [numpy.diff(points, axis=1)]. *)
Definition coord_sum (p : Point) : Z := px p + py p.
Definition coord_diff (p : Point) : Z := py p - px p.

(** The rows of [ordered_list]: top-left, top-right, bottom-right,
    bottom-left.  [numpy.argmin] raises on an empty array: [None]. *)
Definition order_points (points : list Point) : option (list Point) :=
  match points with
  | [] => None
  | p0 :: _ =>
      let s := map coord_sum points in
      let diff := map coord_diff points in
      Some [ nth (argmin s) points p0;
             nth (argmin diff) points p0;
             nth (argmax s) points p0;
             nth (argmax diff) points p0 ]
  end.

(** ** Extreme points, motions and convexity

    The notions in which the properties of [order_points] are stated. *)

Definition attains_min (f : Point -> Z) (pts : list Point) (p : Point)
  : Prop :=
  In p pts /\ forall q, In q pts -> f p <= f q.

Definition attains_max (f : Point -> Z) (pts : list Point) (p : Point)
  : Prop :=
  In p pts /\ forall q, In q pts -> f q <= f p.

(** [x - y], the difference the specification words the labels with;
    [coord_diff] is [y - x]. *)
Definition x_minus_y (p : Point) : Z := px p - py p.

(** The smallest and the largest sum, and the smallest and the largest
    difference, each belong to one point only. *)
Definition unique_extremes (pts : list Point) : Prop :=
  (forall p q, attains_min coord_sum pts p ->
               attains_min coord_sum pts q -> p = q) /\
  (forall p q, attains_max coord_sum pts p ->
               attains_max coord_sum pts q -> p = q) /\
  (forall p q, attains_min coord_diff pts p ->
               attains_min coord_diff pts q -> p = q) /\
  (forall p q, attains_max coord_diff pts p ->
               attains_max coord_diff pts q -> p = q).

Definition translate (dx dy : Z) (p : Point) : Point :=
  (px p + dx, py p + dy).

Definition scale (k : Z) (p : Point) : Point := (k * px p, k * py p).

(** Twice the signed area of the triangle [o], [a], [b]. *)
Definition cross (o a b : Point) : Z :=
  (px a - px o) * (py b - py o) - (py a - py o) * (px b - px o).

(** The quadrilateral with the corners [a], [b], [c], [d] in this order
    is strictly convex: it turns the same way at every corner. *)
Definition convex_quad (a b c d : Point) : Prop :=
  (0 < cross a b c /\ 0 < cross b c d /\
   0 < cross c d a /\ 0 < cross d a b) \/
  (cross a b c < 0 /\ cross b c d < 0 /\
   cross c d a < 0 /\ cross d a b < 0).

(** ** [warp_image] *)

(** What [warp_image] hands to OpenCV: the source corners and the
    destination corners given to [cv2.getPerspectiveTransform], which
    pairs them row by row, and the size of the output image given to
    [cv2.warpPerspective]. *)
Record warp_plan : Type := {
  rectangle : list Point;
  destination : list Point;
  max_width : Z;
  max_height : Z
}.

Definition warp_image (points : list Point) : option warp_plan :=
  match order_points points with
  | Some [topLeft; topRight; bottRight; bottLeft] =>
      let width_a := distance_of_points_float32 bottRight bottLeft in
      let width_b := distance_of_points_float32 topRight topLeft in
      let max_width := Z.max (R_int width_a) (R_int width_b) in
      let height_a := distance_of_points_float32 topRight bottRight in
      let height_b := distance_of_points_float32 topLeft bottLeft in
      let max_height := Z.max (R_int height_a) (R_int height_b) in
      Some {| rectangle := [topLeft; topRight; bottRight; bottLeft];
              destination := [ (0, 0);
                               (max_width - 1, 0);
                               (max_width - 1, max_height - 1);
                               (0, max_height - 1) ];
              max_width := max_width;
              max_height := max_height |}
  | _ => None
  end.

(** The same plan with the integer parts of the lengths taken by
    [Z.sqrt] on the squared lengths: the executable form of
    [warp_image] (see [warp_image_sq_eq]). *)
Definition warp_image_sq (points : list Point) : option warp_plan :=
  match order_points points with
  | Some [topLeft; topRight; bottRight; bottLeft] =>
      let max_width := Z.max (Z.sqrt (sq_dist bottRight bottLeft))
                             (Z.sqrt (sq_dist topRight topLeft)) in
      let max_height := Z.max (Z.sqrt (sq_dist topRight bottRight))
                              (Z.sqrt (sq_dist topLeft bottLeft)) in
      Some {| rectangle := [topLeft; topRight; bottRight; bottLeft];
              destination := [ (0, 0);
                               (max_width - 1, 0);
                               (max_width - 1, max_height - 1);
                               (0, max_height - 1) ];
              max_width := max_width;
              max_height := max_height |}
  | _ => None
  end.

(** ** Normalised position (lines 291 to 294 of the script) *)

Definition position (xpos ypos map_width map_height : Z)
  : npfloat * npfloat :=
  let ypos := Z.abs (ypos - map_height) in
  (int_true_divide xpos map_width, int_true_divide ypos map_height).

(** A component of the position lies in [[0,1]]. *)
Definition in_unit_interval (v : npfloat) : Prop :=
  match v with
  | Fin q => (0 <= q /\ q <= 1)%Q
  | _ => False
  end.

(** ** [find_vertices] *)

(** Python exceptions.  [UnboundLocalError] is what the interpreter
    raises when a local variable is read before any assignment to it.
    [SceneError] stands for the "no object found" condition of the
    specification; no statement of the script raises it. *)
Inductive exception : Type :=
| UnboundLocalError (name : string)
| SceneError.

(** How a call ends: with a value, or with an exception. *)

Inductive outcome (A : Type) : Type :=
| Returns (a : A)
| Raises (e : exception).

Arguments Returns {A} a.
Arguments Raises {A} e.

Section FindVertices.

(** The OpenCV primitives [find_vertices] is written with. *)
Variable Image : Type.
Variable Contour : Type.
(** [cv2.findContours] on the greyscale image: the external contours. *)
Variable findContours : Image -> list Contour.
Variable contourArea : Contour -> Q.
Variable arcLength : Contour -> R.
(** [cv2.approxPolyDP c epsilon True]. *)
Variable approxPolyDP : Contour -> R -> list Point.

(** One round of the loop of lines 91 to 95, on the pair of
    [area_max] and [big_cntr]; [big_cntr] is [None] as long as no
    assignment has given it a value. *)
Definition largest_step (st : Q * option Contour) (c : Contour)
  : Q * option Contour :=
  let area := contourArea c in
  match (area ?= fst st)%Q with
  | Gt => (area, Some c)
  | _ => st
  end.

Definition largest_contour (contours : list Contour)
  : Q * option Contour :=
  fold_left largest_step contours ((-1)%Q, None).

Definition find_vertices (image : Image) : outcome (list Point) :=
  let contours := findContours image in
  match snd (largest_contour contours) with
  | None => Raises (UnboundLocalError "big_cntr"%string)
  | Some big_cntr =>
      let peri := arcLength big_cntr in
      Returns (approxPolyDP big_cntr (0.1 * peri)%R)
  end.

End FindVertices.

(** ** [segment_object] *)

(** A pixel has three 8-bit channels; an image is a list of rows. *)
Definition pixel : Type := (Z * Z * Z)%type.
Definition image : Type := list (list pixel).

Definition black : pixel := (0, 0, 0).

(** [cv2.inRange] at one pixel: 255 where every channel lies between
    the bounds, 0 elsewhere. *)
Definition inRange (p lowerb upperb : pixel) : Z :=
  let '(c1, c2, c3) := p in
  let '(l1, l2, l3) := lowerb in
  let '(u1, u2, u3) := upperb in
  if (l1 <=? c1) && (c1 <=? u1) && (l2 <=? c2) && (c2 <=? u2)
     && (l3 <=? c3) && (c3 <=? u3)
  then 255 else 0.

Definition pixel_and (p q : pixel) : pixel :=
  let '(p1, p2, p3) := p in
  let '(q1, q2, q3) := q in
  (Z.land p1 q1, Z.land p2 q2, Z.land p3 q3).

Definition pixel_or (p q : pixel) : pixel :=
  let '(p1, p2, p3) := p in
  let '(q1, q2, q3) := q in
  (Z.lor p1 q1, Z.lor p2 q2, Z.lor p3 q3).

(** [cv2.bitwise_and (src1, src2, mask=mask)] at one pixel of a fresh
    destination: the conjunction where the mask is not zero, zero
    elsewhere. *)
Definition bitwise_and (src1 src2 : pixel) (mask : Z) : pixel :=
  if mask =? 0 then black else pixel_and src1 src2.

(** Two arrays of the same shape walked together. *)
Fixpoint zip_with {A B C : Type} (f : A -> B -> C)
    (l1 : list A) (l2 : list B) : list C :=
  match l1, l2 with
  | a :: l1', b :: l2' => f a b :: zip_with f l1' l2'
  | _, _ => []
  end.

(** [cvtColor_BGR2HSV] is [cv2.cvtColor (_, cv2.COLOR_BGR2HSV)] at one
    pixel.  The bounds are stored in [uint8] arrays: they are meant
    between 0 and 255, as the four the script passes are. *)
Definition segment_object (cvtColor_BGR2HSV : pixel -> pixel)
    (im : image) (lower_bound upper_bound : Z) (remove_object : bool)
  : image :=
  let image_hsv := map (map cvtColor_BGR2HSV) im in
  let low_arr := (lower_bound, 50, 30) in
  let upp_arr := (upper_bound, 255, 255) in
  let mask := map (map (fun p => inRange p low_arr upp_arr)) image_hsv in
  let mask := if remove_object
              then map (map (fun m => 255 - m)) mask
              else mask in
  zip_with (zip_with (fun p m => bitwise_and p p m)) im mask.

(** The pixels [segment_object] selects before any inversion. *)
Definition in_colour_range (cvtColor_BGR2HSV : pixel -> pixel)
    (lower_bound upper_bound : Z) (p : pixel) : bool :=
  negb (inRange (cvtColor_BGR2HSV p)
          (lower_bound, 50, 30) (upper_bound, 255, 255) =? 0).

(** One pixel through [segment_object]: kept when it is selected,
    black when it is not. *)
Definition segment_pixel (cvtColor_BGR2HSV : pixel -> pixel)
    (lower_bound upper_bound : Z) (remove_object : bool) (p : pixel)
  : pixel :=
  if xorb (in_colour_range cvtColor_BGR2HSV lower_bound upper_bound p)
          remove_object
  then p else black.

(** ** The main program (lines 187 to 300 of the script) *)

(** What can stop the script with a traceback: an exception out of
    [find_vertices]; a [ValueError], from [reshape (4, 2)] on a polygon
    that has not four corners or from unpacking into [(p1, p2, p3)] a
    polygon that has not three; an [IndexError] from [warpedPoints[2]];
    an error of OpenCV while warping. *)
Inductive uncaught : Type :=
| InFindVertices (e : exception)
| ValueError
| IndexError
| Cv2Error.

(** The three lines printed at the end, before formatting. *)
Record printed : Type := {
  filename : string;
  POSITION : npfloat * npfloat;
  BEARING : degrees_val
}.

(** How a run ends: the usage message and exit status 1; the message
    "File not found" and exit status 1; a traceback; the three lines. *)
Inductive script_end : Type :=
| Usage (prog : string)
| FileNotFound
| Traceback (e : uncaught)
| Output (o : printed).

Section Main.

(** The file system and the OpenCV primitives. *)
Variable imread : string -> option image.
Variable cvtColor_BGR2HSV : pixel -> pixel.
Variable Contour : Type.
Variable findContours : image -> list Contour.
Variable contourArea : Contour -> Q.
Variable arcLength : Contour -> R.
Variable approxPolyDP : Contour -> R -> list Point.
(** [cv2.getPerspectiveTransform] followed by [cv2.warpPerspective];
    [None] when OpenCV raises. *)
Variable warpPerspective : image -> warp_plan -> option image.

Definition vertices_of (im : image) : outcome (list Point) :=
  find_vertices image Contour findContours contourArea arcLength
    approxPolyDP im.

(** The part of the script that follows the reading of the image. *)
Definition locate (im_file : string) (im : image) : script_end :=
  let imageWithMask := segment_object cvtColor_BGR2HSV im 97 107 true in
  match vertices_of imageWithMask with
  | Raises e => Traceback (InFindVertices e)
  | Returns vertices =>
      if negb (length vertices =? 4)%nat then Traceback ValueError else
      match order_points vertices with
      | None => Traceback ValueError
      | Some ordered_vertices =>
          match warp_image ordered_vertices with
          | None => Traceback ValueError
          | Some plan =>
              match warpPerspective im plan with
              | None => Traceback Cv2Error
              | Some warped =>
                  match vertices_of warped with
                  | Raises e => Traceback (InFindVertices e)
                  | Returns warpedPoints =>
                      match nth_error warpedPoints 2 with
                      | None => Traceback IndexError
                      | Some corner =>
                          let map_width := px corner in
                          let map_height := py corner in
                          let triangle :=
                            segment_object cvtColor_BGR2HSV warped
                              160 179 false in
                          match vertices_of triangle with
                          | Raises e => Traceback (InFindVertices e)
                          | Returns [p1; p2; p3] =>
                              let t := pointer_tip p1 p2 p3 in
                              Output
                                {| filename := im_file;
                                   POSITION :=
                                     position (xpos t) (ypos t)
                                       map_width map_height;
                                   BEARING :=
                                     hdg (xpos t) (ypos t)
                                       (mid_x t) (mid_y t) map_width |}
                          | Returns _ => Traceback ValueError
                          end
                      end
                  end
              end
          end
      end
  end.

(** [sys.argv] is the program name followed by the arguments. *)
Definition main (prog : string) (args : list string) : script_end :=
  match args with
  | [im_file] =>
      match imread im_file with
      | None => FileNotFound
      | Some im => locate im_file im
      end
  | _ => Usage prog
  end.

End Main.

(** The corners of an upright rectangle, clockwise from the top-left
    one. *)
Definition upright_rectangle (x0 y0 x1 y1 : Z) : list Point :=
  [(x0, y0); (x1, y0); (x1, y1); (x0, y1)].

(** ** A scene for the main program

    Stand-ins for the file system and for OpenCV on one scene: the
    picture of a map with the corners (12,9), (208,14), (203,151),
    (7,147), which warps to an image whose contour has its third corner
    at (195,137), and on it a pointer with the corners (40,60), (50,60),
    (45,20).  Contours are given as lists of points and [approxPolyDP]
    leaves them as they are. *)

Definition scene_imread (im_file : string) : option image := Some [].

Definition scene_warpPerspective (im : image) (plan : warp_plan)
  : option image := Some [[(1, 1, 1)]].

Definition scene_findContours (im : image) : list (list Point) :=
  match im with
  | [] => [[(203, 151); (12, 9); (7, 147); (208, 14)]]
  | [] :: _ => []
  | (p :: _) :: _ =>
      if fst (fst p) =? 0
      then [[(40, 60); (50, 60); (45, 20)]]
      else [[(0, 0); (0, 137); (195, 137); (195, 0)]]
  end.

(** The same scene with a map that shows five corners. *)
Definition scene_findContours_5 (im : image) : list (list Point) :=
  [[(12, 9); (208, 14); (203, 151); (100, 160); (7, 147)]].

Definition scene_main (findContours : image -> list (list Point))
    (prog : string) (args : list string) : script_end :=
  main scene_imread (fun p => p) (list Point) findContours
    (fun _ => 1%Q) (fun _ => 0%R) (fun c _ => c) scene_warpPerspective
    prog args.

(** * Properties *)

(** ** The script on small inputs *)

Example get_slope_vertical : get_slope 7 3 7 12 = Fin (inject_Z 9 / inject_Z 1).
Proof. reflexivity. Qed.

Example get_slope_diagonal : get_slope 1 1 5 3 = Fin (inject_Z 2 / inject_Z 4).
Proof. reflexivity. Qed.

Example py_int_toward_zero :
  py_int (half_sum 3 4) = 3 /\ py_int (half_sum (-3) 0) = -1.
Proof. split; reflexivity. Qed.

Example argmin_first_of_ties : argmin [5; 2; 7; 2] = 1%nat.
Proof. reflexivity. Qed.

Example argmax_first_of_ties : argmax [5; 7; 2; 7] = 1%nat.
Proof. reflexivity. Qed.

Example order_points_photo :
  order_points [(203, 151); (12, 9); (7, 147); (208, 14)] =
  Some [(12, 9); (208, 14); (203, 151); (7, 147)].
Proof. reflexivity. Qed.

Example order_points_empty : order_points [] = None.
Proof. reflexivity. Qed.

Example pointer_tip_sq_example :
  pointer_tip_sq (40, 60) (50, 60) (45, 20) =
  {| xpos := 45; ypos := 20; mid_x := 45; mid_y := 60 |}.
Proof. reflexivity. Qed.

Example angle_tangent_due_east :
  angle_tangent 80 50 60 50 100 = Fin ((49 + - (-1 # 19)) / (1 + 49 * (-1 # 19))).
Proof. reflexivity. Qed.

Example position_example :
  position 30 20 100 80 = (Fin (30 / 100), Fin (60 / 80)).
Proof. reflexivity. Qed.

(** ** Arithmetic of [npfloat] *)

Lemma Qis_zero_iff (q : Q) : Qis_zero q = true <-> (q == 0)%Q.
Proof.
  unfold Qis_zero, Qeq. simpl. rewrite Z.eqb_eq. lia.
Qed.

Lemma Qis_neg_iff (q : Q) : Qis_neg q = true <-> (q < 0)%Q.
Proof.
  unfold Qis_neg, Qlt. simpl. rewrite Z.ltb_lt. lia.
Qed.

Lemma Qis_pos_iff (q : Q) : Qis_pos q = true <-> (0 < q)%Q.
Proof.
  unfold Qis_pos, Qlt. simpl. rewrite Z.ltb_lt. lia.
Qed.

Lemma Qis_zero_by_sign (q : Q) :
  Qis_pos q = false -> Qis_neg q = false -> Qis_zero q = true.
Proof.
  unfold Qis_pos, Qis_neg, Qis_zero. intros Hp Hn.
  apply Z.ltb_ge in Hp, Hn. apply Z.eqb_eq. lia.
Qed.

Lemma int_true_divide_nonzero (n d : Z) :
  d <> 0 -> int_true_divide n d = Fin (inject_Z n / inject_Z d).
Proof.
  intros Hd. unfold int_true_divide, of_int, fdiv, Qis_zero. simpl.
  destruct (d =? 0) eqn:E; [ apply Z.eqb_eq in E; contradiction | reflexivity ].
Qed.

Lemma inject_Z_div_1 (n : Z) : (inject_Z n / inject_Z 1 == inject_Z n)%Q.
Proof.
  unfold Qdiv. change (/ inject_Z 1)%Q with 1%Q. apply Qmult_1_r.
Qed.

(** ** [get_slope] *)

Lemma slope_divisor_nonzero (x1 x2 : Z) :
  (if x2 =? x1 then x2 + 1 else x2) - x1 <> 0.
Proof.
  destruct (x2 =? x1) eqn:E.
  - apply Z.eqb_eq in E. lia.
  - apply Z.eqb_neq in E. lia.
Qed.

Lemma get_slope_finite (x1 y1 x2 y2 : Z) :
  get_slope x1 y1 x2 y2 =
  Fin (inject_Z (y2 - y1) /
       inject_Z ((if x2 =? x1 then x2 + 1 else x2) - x1)).
Proof.
  unfold get_slope. apply int_true_divide_nonzero, slope_divisor_nonzero.
Qed.

(** C10.  [get_slope] is total: the divisor [x2 - x1] it reaches is never
    zero, so the quotient is always a finite number and no infinity or
    NaN comes out of the division; on a vertical line ([x2] equal to
    [x1]) the divisor is exactly 1 and the slope reported is
    [(y2 - y1) / 1], that is [y2 - y1]. *)
Theorem get_slope_total (x1 y1 x2 y2 : Z) :
  (exists q : Q, get_slope x1 y1 x2 y2 = Fin q) /\
  (if x2 =? x1 then x2 + 1 else x2) - x1 <> 0 /\
  (if x1 =? x1 then x1 + 1 else x1) - x1 = 1 /\
  get_slope x1 y1 x1 y2 = Fin (inject_Z (y2 - y1) / inject_Z 1) /\
  (inject_Z (y2 - y1) / inject_Z 1 == inject_Z (y2 - y1))%Q.
Proof.
  split; [ | split; [ | split; [ | split ] ] ].
  - eexists. apply get_slope_finite.
  - apply slope_divisor_nonzero.
  - rewrite Z.eqb_refl. lia.
  - rewrite get_slope_finite, Z.eqb_refl.
    replace (x1 + 1 - x1) with 1 by lia. reflexivity.
  - apply inject_Z_div_1.
Qed.

(** ** Quadrant correction *)

Lemma hdg_correction (xpos ypos mid_x mid_y map_width : Z) :
  hdg xpos ypos mid_x mid_y map_width =
  match quadrant_correction xpos ypos mid_x mid_y
          (angle_tangent xpos ypos mid_x mid_y map_width) with
  | 0 => pointer_dirr xpos ypos mid_x mid_y map_width
  | k => deg_add (pointer_dirr xpos ypos mid_x mid_y map_width) k
  end.
Proof.
  unfold hdg, quadrant_correction, pointer_dirr.
  destruct (mid_x >? xpos); [ | reflexivity ].
  destruct (mid_y <? ypos); [ reflexivity | ].
  destruct (flt0 _); reflexivity.
Qed.

Lemma Deg_eq (a b : R) : a = b -> Deg a = Deg b.
Proof. intros ->. reflexivity. Qed.

(** C2, as the script has it.  The correction added to the unsigned
    angle is +180 when the tip is left of and below the middle of the
    base (larger [y], image rows growing downward); +270 when the tip is
    left of the middle, not below it, and the tangent is negative; +180
    when the tip is left of the middle, not below it, and the tangent is
    not negative; nothing is added when the tip is not left of the
    middle. *)
Theorem quadrant_correction_cases (xpos ypos mid_x mid_y map_width : Z) :
  let t := angle_tangent xpos ypos mid_x mid_y map_width in
  let d := pointer_dirr xpos ypos mid_x mid_y map_width in
  (left_of xpos mid_x -> below ypos mid_y ->
   quadrant_correction xpos ypos mid_x mid_y t = 180 /\
   hdg xpos ypos mid_x mid_y map_width = deg_add d 180) /\
  (left_of xpos mid_x -> ~ below ypos mid_y -> flt0 t = true ->
   quadrant_correction xpos ypos mid_x mid_y t = 270 /\
   hdg xpos ypos mid_x mid_y map_width = deg_add d 270) /\
  (left_of xpos mid_x -> ~ below ypos mid_y -> flt0 t = false ->
   quadrant_correction xpos ypos mid_x mid_y t = 180 /\
   hdg xpos ypos mid_x mid_y map_width = deg_add d 180) /\
  (~ left_of xpos mid_x ->
   quadrant_correction xpos ypos mid_x mid_y t = 0 /\
   hdg xpos ypos mid_x mid_y map_width = d).
Proof.
  intros t d. subst t d.
  unfold left_of, below, hdg, pointer_dirr, quadrant_correction.
  destruct (Z.gtb_spec mid_x xpos); destruct (Z.ltb_spec mid_y ypos);
    repeat split; intros; try lia; try reflexivity;
    match goal with H : flt0 _ = _ |- _ => rewrite H; reflexivity end.
Qed.

(** The four cases, each met by a pointer on a map 100 pixels wide. *)
Lemma quadrant_correction_cases_witness :
  (quadrant_correction 10 140 50 99 (angle_tangent 10 140 50 99 100) = 180) /\
  (quadrant_correction 10 59 50 99 (angle_tangent 10 59 50 99 100) = 270) /\
  (quadrant_correction 10 20 50 30 (angle_tangent 10 20 50 30 100) = 180) /\
  (quadrant_correction 70 59 50 99 (angle_tangent 70 59 50 99 100) = 0).
Proof.
  split; [ | split; [ | split ] ].
  - destruct (quadrant_correction_cases 10 140 50 99 100) as (H & _).
    apply H; [ unfold left_of | unfold below ]; lia.
  - destruct (quadrant_correction_cases 10 59 50 99 100) as (_ & H & _).
    apply H; [ unfold left_of; lia | unfold below; lia | reflexivity ].
  - destruct (quadrant_correction_cases 10 20 50 30 100) as (_ & _ & H & _).
    apply H; [ unfold left_of; lia | unfold below; lia | reflexivity ].
  - destruct (quadrant_correction_cases 70 59 50 99 100) as (_ & _ & _ & H).
    apply H. unfold left_of; lia.
Defined.

Lemma angle_tangent_north_west :
  angle_tangent 10 59 50 99 100 = Fin (-1681 # 1681).
Proof. vm_compute. reflexivity. Qed.

(** C2, as the specification words it, fails: a tip left of and above the
    middle of the base (smaller [y]) with a negative tangent gets +270,
    not +180; the pointer heads north-west and the heading is 315. *)
Lemma quadrant_left_above_not_180 :
  left_of 10 50 /\ above 59 99 /\
  quadrant_correction 10 59 50 99 (angle_tangent 10 59 50 99 100) = 270 /\
  quadrant_correction 10 59 50 99 (angle_tangent 10 59 50 99 100) <> 180 /\
  hdg 10 59 50 99 100 = Deg 315.
Proof.
  split; [ unfold left_of; lia | ].
  split; [ unfold above; lia | ].
  split; [ vm_compute; reflexivity | ].
  split; [ vm_compute; discriminate | ].
  unfold hdg. rewrite angle_tangent_north_west.
  change (50 >? 10) with true. change (99 <? 59) with false.
  change (flt0 (Fin (-1681 # 1681))) with true.
  cbv iota. unfold atan_abs_degrees, deg_add.
  replace (Q2R (-1681 # 1681)) with (- (1))%R
    by (unfold Q2R; simpl; field).
  apply Deg_eq.
  rewrite atan_opp, Rabs_Ropp, atan_1.
  pose proof PI_RGT_0 as Hpi.
  rewrite Rabs_pos_eq by lra.
  field. lra.
Qed.

(** ** [distance_of_points] *)

Lemma sq_dist_nonneg (a b : Point) : 0 <= sq_dist a b.
Proof. unfold sq_dist. nia. Qed.

Lemma sq_dist_sym (a b : Point) : sq_dist a b = sq_dist b a.
Proof. unfold sq_dist. ring. Qed.

Lemma sq_dist_zero (a b : Point) : sq_dist a b = 0 <-> a = b.
Proof.
  destruct a as [ax ay], b as [bx by_]. unfold sq_dist, px, py. simpl.
  split.
  - intros H. assert (ax = bx) by nia. assert (ay = by_) by nia. congruence.
  - intros H. injection H as -> ->. rewrite !Z.sub_diag. reflexivity.
Qed.

Lemma IZR_sq_dist_nonneg (a b : Point) : (0 <= IZR (sq_dist a b))%R.
Proof. apply IZR_le, sq_dist_nonneg. Qed.

Lemma wrap32_small (z : Z) : - 2147483648 <= z < 2147483648 -> wrap32 z = z.
Proof.
  intros H. unfold wrap32.
  change (2 ^ 31) with 2147483648. change (2 ^ 32) with 4294967296.
  rewrite Z.mod_small by lia. lia.
Qed.

Lemma square_below (d : Z) : - 32767 <= d <= 32767 -> 0 <= d ^ 2 <= 1073676289.
Proof. intros H. rewrite Z.pow_2_r. nia. Qed.

(** Within [int32_safe] nothing wraps: the script works on the exact
    squared length. *)
Lemma sq_dist_int32_safe (a b : Point) :
  int32_safe a -> int32_safe b -> sq_dist_int32 a b = sq_dist a b.
Proof.
  unfold int32_safe, sq_dist_int32, sq_dist.
  change (2 ^ 15) with 32768. intros [Hax Hay] [Hbx Hby].
  pose proof (square_below (px a - px b) ltac:(lia)) as Sx.
  pose proof (square_below (py a - py b) ltac:(lia)) as Sy.
  rewrite (wrap32_small (px a - px b)) by lia.
  rewrite (wrap32_small (py a - py b)) by lia.
  rewrite (wrap32_small ((px a - px b) ^ 2)) by lia.
  rewrite (wrap32_small ((py a - py b) ^ 2)) by lia.
  apply wrap32_small. lia.
Qed.

Lemma np_sqrt_nonneg (z : Z) : 0 <= z -> np_sqrt z = F64 (sqrt (IZR z)).
Proof.
  intros Hz. unfold np_sqrt.
  destruct (Z.ltb_spec z 0); [ lia | reflexivity ].
Qed.

Lemma np_sqrt_neg (z : Z) : z < 0 -> np_sqrt z = F64NaN.
Proof.
  intros Hz. unfold np_sqrt.
  destruct (Z.ltb_spec z 0); [ reflexivity | lia ].
Qed.

Lemma distance_safe (a b : Point) :
  int32_safe a -> int32_safe b ->
  distance_of_points a b = F64 (sqrt (IZR (sq_dist a b))).
Proof.
  intros Ha Hb. unfold distance_of_points.
  rewrite (sq_dist_int32_safe a b Ha Hb).
  apply np_sqrt_nonneg, sq_dist_nonneg.
Qed.

(** C8, as the script has it.  On two points whose coordinates lie
    between 0 and 32767, where no [int32] operation wraps,
    [distance_of_points] is symmetric, and it is zero exactly on equal
    points. *)
Theorem distance_of_points_symmetric (a b : Point) :
  int32_safe a -> int32_safe b ->
  f64_eq (distance_of_points a b) (distance_of_points b a) /\
  (f64_eq (distance_of_points a b) (F64 0) <-> a = b).
Proof.
  intros Ha Hb.
  rewrite (distance_safe a b Ha Hb), (distance_safe b a Hb Ha).
  split.
  - simpl. now rewrite sq_dist_sym.
  - simpl. split.
    + intros H. apply sqrt_eq_0 in H; [ | apply IZR_sq_dist_nonneg ].
      apply eq_IZR in H. now apply sq_dist_zero.
    + intros H. apply sq_dist_zero in H. rewrite H. apply sqrt_0.
Qed.

Lemma int32_safe_intro (x y : Z) :
  0 <= x < 32768 -> 0 <= y < 32768 -> int32_safe (x, y).
Proof.
  intros Hx Hy. unfold int32_safe, px, py. simpl fst. simpl snd.
  change (2 ^ 15) with 32768. lia.
Qed.

Lemma distance_of_points_symmetric_witness :
  f64_eq (distance_of_points (43, 64) (40, 60))
         (distance_of_points (40, 60) (43, 64)) /\
  (f64_eq (distance_of_points (43, 64) (40, 60)) (F64 0) <->
   (43, 64) = (40, 60)).
Proof.
  apply (distance_of_points_symmetric (43, 64) (40, 60));
    apply int32_safe_intro; lia.
Defined.

(** C8, as the specification words it, fails on points that are far
    apart.  The square of 65536 is [2 ^ 32], which is 0 in [int32]: the
    distance from (0,0) to (65536,0) is zero.  The square of 46341
    exceeds [2 ^ 31 - 1] and wraps to a negative number, whose root is
    a NaN, and a NaN is not equal to itself: the distance from (0,0) to
    (46341,0) is not equal to the distance from (46341,0) to (0,0). *)
Lemma distance_of_points_wraps :
  (0, 0) <> (65536, 0) /\
  sq_dist_int32 (0, 0) (65536, 0) = 0 /\
  f64_eq (distance_of_points (0, 0) (65536, 0)) (F64 0) /\
  sq_dist_int32 (0, 0) (46341, 0) = -2147479015 /\
  distance_of_points (0, 0) (46341, 0) = F64NaN /\
  distance_of_points (46341, 0) (0, 0) = F64NaN /\
  ~ f64_eq (distance_of_points (0, 0) (46341, 0))
           (distance_of_points (46341, 0) (0, 0)).
Proof.
  assert (E0 : sq_dist_int32 (0, 0) (65536, 0) = 0) by reflexivity.
  assert (E1 : sq_dist_int32 (0, 0) (46341, 0) = -2147479015) by reflexivity.
  assert (E2 : sq_dist_int32 (46341, 0) (0, 0) = -2147479015) by reflexivity.
  assert (D0 : distance_of_points (0, 0) (65536, 0) = F64 (sqrt (IZR 0))).
  { unfold distance_of_points. rewrite E0. now apply np_sqrt_nonneg. }
  assert (D1 : distance_of_points (0, 0) (46341, 0) = F64NaN).
  { unfold distance_of_points. rewrite E1. now apply np_sqrt_neg. }
  assert (D2 : distance_of_points (46341, 0) (0, 0) = F64NaN).
  { unfold distance_of_points. rewrite E2. now apply np_sqrt_neg. }
  split; [ discriminate | ].
  split; [ exact E0 | ].
  split; [ rewrite D0; simpl; apply sqrt_0 | ].
  split; [ exact E1 | ].
  split; [ exact D1 | ].
  split; [ exact D2 | ].
  rewrite D1, D2. simpl. tauto.
Qed.

(** ** Tip and base of the pointer *)

Lemma sqrt_IZR_lt_iff (u v : Z) :
  0 <= u -> 0 <= v -> (sqrt (IZR u) < sqrt (IZR v))%R <-> u < v.
Proof.
  intros Hu Hv.
  assert (Hu' : (0 <= IZR u)%R) by now apply IZR_le.
  assert (Hv' : (0 <= IZR v)%R) by now apply IZR_le.
  split; intros H.
  - apply lt_IZR. now apply sqrt_lt_0.
  - apply sqrt_lt_1; auto. now apply IZR_lt.
Qed.

Lemma sqrt_IZR_eq_iff (u v : Z) :
  0 <= u -> 0 <= v -> sqrt (IZR u) = sqrt (IZR v) <-> u = v.
Proof.
  intros Hu Hv.
  assert (Hu' : (0 <= IZR u)%R) by now apply IZR_le.
  assert (Hv' : (0 <= IZR v)%R) by now apply IZR_le.
  split; intros H.
  - apply eq_IZR. now apply sqrt_inj.
  - now rewrite H.
Qed.

(** The comparisons of the script on two roots, decided on the
    integers under the roots. *)
Lemma root_lt_decided (u v : Z) :
  f64_lt (np_sqrt u) (np_sqrt v) <-> root_ltb u v = true.
Proof.
  unfold root_ltb.
  destruct (Z.leb_spec 0 u) as [Hu | Hu]; destruct (Z.leb_spec 0 v) as [Hv | Hv];
    cbn [andb].
  - rewrite !np_sqrt_nonneg by assumption. simpl.
    rewrite (sqrt_IZR_lt_iff u v Hu Hv). symmetry. apply Z.ltb_lt.
  - rewrite (np_sqrt_neg v Hv), np_sqrt_nonneg by assumption. simpl.
    split; [ contradiction | discriminate ].
  - rewrite (np_sqrt_neg u Hu). simpl.
    split; [ contradiction | discriminate ].
  - rewrite (np_sqrt_neg u Hu). simpl.
    split; [ contradiction | discriminate ].
Qed.

Lemma root_eq_decided (u v : Z) :
  f64_eq (np_sqrt u) (np_sqrt v) <-> root_eqb u v = true.
Proof.
  unfold root_eqb.
  destruct (Z.leb_spec 0 u) as [Hu | Hu]; destruct (Z.leb_spec 0 v) as [Hv | Hv];
    cbn [andb].
  - rewrite !np_sqrt_nonneg by assumption. simpl.
    rewrite (sqrt_IZR_eq_iff u v Hu Hv). symmetry. apply Z.eqb_eq.
  - rewrite (np_sqrt_neg v Hv), np_sqrt_nonneg by assumption. simpl.
    split; [ contradiction | discriminate ].
  - rewrite (np_sqrt_neg u Hu). simpl.
    split; [ contradiction | discriminate ].
  - rewrite (np_sqrt_neg u Hu). simpl.
    split; [ contradiction | discriminate ].
Qed.

Lemma if_root_lt {A : Type} (u v : Z) (x y : A) :
  (if f64_lt_dec (np_sqrt u) (np_sqrt v) then x else y) =
  (if root_ltb u v then x else y).
Proof.
  destruct (f64_lt_dec (np_sqrt u) (np_sqrt v)) as [H | H].
  - apply root_lt_decided in H. now rewrite H.
  - destruct (root_ltb u v) eqn:E; [ | reflexivity ].
    exfalso. apply H. now apply root_lt_decided.
Qed.

Lemma if_root_eq {A : Type} (u v : Z) (x y : A) :
  (if f64_eq_dec (np_sqrt u) (np_sqrt v) then x else y) =
  (if root_eqb u v then x else y).
Proof.
  destruct (f64_eq_dec (np_sqrt u) (np_sqrt v)) as [H | H].
  - apply root_eq_decided in H. now rewrite H.
  - destruct (root_eqb u v) eqn:E; [ | reflexivity ].
    exfalso. apply H. now apply root_eq_decided.
Qed.

Lemma min3_of_roots (u v w : Z) :
  min3 (np_sqrt u) (np_sqrt v) (np_sqrt w) = np_sqrt (min3_sq u v w).
Proof.
  unfold min3, min3_sq. rewrite if_root_lt.
  destruct (root_ltb v u); now rewrite if_root_lt; destruct (root_ltb w _).
Qed.

Lemma pointer_tip_sq_eq (p1 p2 p3 : Point) :
  pointer_tip p1 p2 p3 = pointer_tip_sq p1 p2 p3.
Proof.
  unfold pointer_tip, pointer_tip_sq, distance_of_points.
  rewrite min3_of_roots, !if_root_eq. reflexivity.
Qed.

Lemma root_ltb_nonneg (u v : Z) :
  0 <= u -> 0 <= v -> root_ltb u v = (u <? v).
Proof.
  intros Hu Hv. unfold root_ltb.
  destruct (Z.leb_spec 0 u); destruct (Z.leb_spec 0 v);
    cbn [andb]; first [ reflexivity | lia ].
Qed.

Lemma min3_sq_least (u v w : Z) :
  0 <= u -> 0 <= v -> 0 <= w ->
  min3_sq u v w <= u /\ min3_sq u v w <= v /\ min3_sq u v w <= w /\
  (min3_sq u v w = u \/ min3_sq u v w = v \/ min3_sq u v w = w).
Proof.
  intros Hu Hv Hw. unfold min3_sq.
  pose proof (root_ltb_nonneg v u Hv Hu) as E1. rewrite E1.
  destruct (Z.ltb_spec v u) as [L1 | L1].
  - pose proof (root_ltb_nonneg w v Hw Hv) as E2. rewrite E2.
    destruct (Z.ltb_spec w v); lia.
  - pose proof (root_ltb_nonneg w u Hw Hu) as E2. rewrite E2.
    destruct (Z.ltb_spec w u); lia.
Qed.

Lemma root_eqb_nonneg (u v : Z) :
  0 <= u -> 0 <= v -> root_eqb u v = (u =? v).
Proof.
  intros Hu Hv. unfold root_eqb.
  destruct (Z.leb_spec 0 u); destruct (Z.leb_spec 0 v);
    cbn [andb]; first [ reflexivity | lia ].
Qed.

Lemma py_int_half_sum (u v : Z) :
  py_int (half_sum u v) = wrap32 (u + v) ÷ 2.
Proof.
  unfold py_int, half_sum. simpl. now rewrite Z.mul_1_r.
Qed.

Lemma py_int_half_sum_safe (u v : Z) :
  0 <= u < 32768 -> 0 <= v < 32768 -> py_int (half_sum u v) = (u + v) ÷ 2.
Proof.
  intros Hu Hv. rewrite py_int_half_sum, wrap32_small by lia. reflexivity.
Qed.

(** Truncating a half keeps the result within half a pixel of the
    exact mean, on the side of zero. *)
Lemma quot_2_bounds (s : Z) :
  Z.abs (2 * (s ÷ 2)) <= Z.abs s /\ Z.abs (s - 2 * (s ÷ 2)) <= 1.
Proof.
  pose proof (Z.quot_rem' s 2) as E.
  pose proof (Z.rem_bound_abs s 2 ltac:(lia)) as B.
  destruct (Z.le_gt_cases 0 s) as [Hs | Hs].
  - pose proof (Z.rem_bound_pos s 2 Hs ltac:(lia)). lia.
  - pose proof (Z.rem_bound_pos_neg s 2 ltac:(lia) ltac:(lia)). lia.
Qed.

Lemma pointer_tip_safe (p1 p2 p3 : Point) :
  int32_safe p1 -> int32_safe p2 -> int32_safe p3 ->
  (pointer_tip p1 p2 p3 = tip_over_base p3 p1 p2 /\
   sq_dist p1 p2 <= sq_dist p1 p3 /\ sq_dist p1 p2 <= sq_dist p2 p3) \/
  (pointer_tip p1 p2 p3 = tip_over_base p2 p1 p3 /\
   sq_dist p1 p3 < sq_dist p1 p2 /\ sq_dist p1 p3 <= sq_dist p2 p3) \/
  (pointer_tip p1 p2 p3 = tip_over_base p1 p3 p2 /\
   sq_dist p2 p3 < sq_dist p1 p2 /\ sq_dist p2 p3 < sq_dist p1 p3).
Proof.
  intros S1 S2 S3. rewrite pointer_tip_sq_eq. unfold pointer_tip_sq.
  rewrite !sq_dist_int32_safe by assumption.
  pose proof (sq_dist_nonneg p1 p2) as N12.
  pose proof (sq_dist_nonneg p1 p3) as N13.
  pose proof (sq_dist_nonneg p2 p3) as N23.
  pose proof (min3_sq_least _ _ _ N12 N13 N23) as (L1 & L2 & L3 & Hm).
  assert (Nm : 0 <= min3_sq (sq_dist p1 p2) (sq_dist p1 p3) (sq_dist p2 p3))
    by (destruct Hm as [-> | [-> | ->]]; assumption).
  rewrite !root_eqb_nonneg by assumption.
  destruct S1 as [S1x S1y], S2 as [S2x S2y], S3 as [S3x S3y].
  change (2 ^ 15) with 32768 in *.
  unfold tip_over_base.
  rewrite !py_int_half_sum_safe by assumption.
  destruct (Z.eqb_spec (sq_dist p1 p2)
              (min3_sq (sq_dist p1 p2) (sq_dist p1 p3) (sq_dist p2 p3)))
    as [E1 | E1].
  - left. split; [ reflexivity | lia ].
  - destruct (Z.eqb_spec (sq_dist p1 p3)
                (min3_sq (sq_dist p1 p2) (sq_dist p1 p3) (sq_dist p2 p3)))
      as [E2 | E2].
    + right; left. split; [ reflexivity | lia ].
    + right; right. split; [ reflexivity | lia ].
Qed.

(** C1, as the script has it.  On three corners whose coordinates lie
    between 0 and 32767, where no [int32] operation wraps, the script
    takes the two corners joined by an edge of least Euclidean length
    as the base and the third corner as the tip, and the middle of the
    base is the mean of its two ends, truncated to an integer pixel. *)
Theorem pointer_tip_shortest_edge (p1 p2 p3 : Point) :
  int32_safe p1 -> int32_safe p2 -> int32_safe p3 ->
  let t := pointer_tip p1 p2 p3 in
  exists apex a b : Point,
    Permutation [apex; a; b] [p1; p2; p3] /\
    sq_dist a b <= sq_dist p1 p2 /\
    sq_dist a b <= sq_dist p1 p3 /\
    sq_dist a b <= sq_dist p2 p3 /\
    xpos t = px apex /\ ypos t = py apex /\
    mid_x t = (px a + px b) ÷ 2 /\
    mid_y t = (py a + py b) ÷ 2 /\
    Z.abs (px a + px b - 2 * mid_x t) <= 1 /\
    Z.abs (py a + py b - 2 * mid_y t) <= 1.
Proof.
  intros S1 S2 S3 t. subst t.
  destruct (pointer_tip_safe p1 p2 p3 S1 S2 S3)
    as [(E & H1 & H2) | [(E & H1 & H2) | (E & H1 & H2)]]; rewrite E.
  - exists p3, p1, p2. cbn [tip_over_base xpos ypos mid_x mid_y].
    repeat split; try lia; try apply quot_2_bounds.
    apply (Permutation_cons_append [p1; p2] p3).
  - exists p2, p1, p3. cbn [tip_over_base xpos ypos mid_x mid_y].
    repeat split; try lia; try apply quot_2_bounds.
    apply perm_swap.
  - exists p1, p3, p2. cbn [tip_over_base xpos ypos mid_x mid_y].
    rewrite (sq_dist_sym p3 p2).
    repeat split; try lia; try apply quot_2_bounds.
    apply perm_skip, perm_swap.
Qed.

Lemma pointer_tip_shortest_edge_witness :
  let t := pointer_tip (40, 60) (50, 60) (45, 20) in
  exists apex a b : Point,
    Permutation [apex; a; b] [(40, 60); (50, 60); (45, 20)] /\
    sq_dist a b <= sq_dist (40, 60) (50, 60) /\
    sq_dist a b <= sq_dist (40, 60) (45, 20) /\
    sq_dist a b <= sq_dist (50, 60) (45, 20) /\
    xpos t = px apex /\ ypos t = py apex /\
    mid_x t = (px a + px b) ÷ 2 /\
    mid_y t = (py a + py b) ÷ 2 /\
    Z.abs (px a + px b - 2 * mid_x t) <= 1 /\
    Z.abs (py a + py b - 2 * mid_y t) <= 1.
Proof.
  apply (pointer_tip_shortest_edge (40, 60) (50, 60) (45, 20));
    apply int32_safe_intro; lia.
Defined.

(** C1, as the specification words it, fails on corners that are far
    apart.  For the corners (0,0), (65536,0) and (10,30) the squared
    length of the first edge is [2 ^ 32], which is 0 in [int32]: the
    script takes that edge, the longest of the three, as the base and
    (10,30) as the tip, although the edge from (0,0) to (10,30) is the
    shortest. *)
Lemma pointer_tip_wraps :
  pointer_tip (0, 0) (65536, 0) (10, 30) =
    {| xpos := 10; ypos := 30; mid_x := 32768; mid_y := 0 |} /\
  sq_dist (0, 0) (10, 30) < sq_dist (65536, 0) (10, 30) /\
  sq_dist (65536, 0) (10, 30) < sq_dist (0, 0) (65536, 0) /\
  ~ (sq_dist (0, 0) (65536, 0) <= sq_dist (0, 0) (10, 30)).
Proof.
  split; [ rewrite pointer_tip_sq_eq; reflexivity | ].
  vm_compute. repeat split; try reflexivity. intros H. apply H. reflexivity.
Qed.

(** ** Range of the heading *)

(** Both slopes are finite, so the tangent is a quotient of two finite
    numbers; it is never a NaN, because the dividend [n - p] and the
    divisor [1 + n * p] cannot vanish together. *)
Lemma tangent_of_slopes (n p : Q) :
  let t := fdiv (fsub (Fin n) (Fin p))
                (fadd (of_int 1) (fmul (Fin n) (Fin p))) in
  (~ (inject_Z 1 + n * p == 0)%Q /\
   t = Fin ((n + - p) / (inject_Z 1 + n * p))) \/
  ((inject_Z 1 + n * p == 0)%Q /\ (t = PInf \/ t = NInf)).
Proof.
  simpl.
  destruct (Qis_zero (inject_Z 1 + n * p)) eqn:Ez.
  - right. apply Qis_zero_iff in Ez. split; [ exact Ez | ].
    destruct (Qis_pos (n + - p)) eqn:Ep; [ now left | ].
    destruct (Qis_neg (n + - p)) eqn:En; [ now right | ].
    exfalso.
    assert (Hz : (n + - p == 0)%Q).
    { now apply Qis_zero_iff, Qis_zero_by_sign. }
    change (inject_Z 1) with 1%Q in Ez. nra.
  - left. split; [ | reflexivity ].
    intros H. apply Qis_zero_iff in H. congruence.
Qed.

Lemma angle_tangent_cases (xpos ypos mid_x mid_y map_width : Z) :
  let t := angle_tangent xpos ypos mid_x mid_y map_width in
  (exists q : Q, t = Fin q) \/ t = PInf \/ t = NInf.
Proof.
  unfold angle_tangent, north_slope, pointer_slope.
  rewrite !get_slope_finite.
  match goal with
  | |- context [fdiv (fsub (Fin ?n) (Fin ?p)) _] =>
      destruct (tangent_of_slopes n p) as [[_ E] | [_ [E | E]]]
  end; simpl in *; rewrite E; eauto.
Qed.

Lemma right_angle_degrees : (Rabs (PI / 2) * (180 / PI) = 90)%R.
Proof.
  pose proof PI_RGT_0 as Hpi.
  rewrite Rabs_pos_eq by lra. field. lra.
Qed.

Lemma atan_degrees_bound (x : R) :
  (0 <= Rabs (atan x) * (180 / PI) < 90)%R.
Proof.
  pose proof PI_RGT_0 as Hpi.
  pose proof (atan_bound x) as [Hlo Hhi].
  assert (Ha : (0 <= Rabs (atan x) < PI / 2)%R).
  { split; [ apply Rabs_pos | ]. apply Rabs_def1; lra. }
  assert (Hk : (0 < 180 / PI)%R).
  { apply Rdiv_lt_0_compat; lra. }
  split.
  - apply Rmult_le_pos; lra.
  - replace 90%R with (PI / 2 * (180 / PI))%R by (field; lra).
    apply Rmult_lt_compat_r; lra.
Qed.

Lemma quadrant_correction_values
    (xpos ypos mid_x mid_y : Z) (t : npfloat) :
  quadrant_correction xpos ypos mid_x mid_y t = 0 \/
  quadrant_correction xpos ypos mid_x mid_y t = 180 \/
  quadrant_correction xpos ypos mid_x mid_y t = 270.
Proof.
  unfold quadrant_correction.
  destruct (mid_x >? xpos); [ | now left ].
  destruct (mid_y <? ypos); [ now right; left | ].
  destruct (flt0 t); [ now right; right | now right; left ].
Qed.

Lemma hdg_as_sum (xpos ypos mid_x mid_y map_width : Z) (a : R) :
  pointer_dirr xpos ypos mid_x mid_y map_width = Deg a ->
  hdg xpos ypos mid_x mid_y map_width =
  Deg (a + IZR (quadrant_correction xpos ypos mid_x mid_y
                  (angle_tangent xpos ypos mid_x mid_y map_width))).
Proof.
  intros Ha. rewrite hdg_correction, Ha.
  destruct (quadrant_correction_values xpos ypos mid_x mid_y
              (angle_tangent xpos ypos mid_x mid_y map_width))
    as [E | [E | E]]; rewrite E; simpl; try reflexivity.
  apply Deg_eq. lra.
Qed.

(** C9, as the script has it.  The heading is always a number (never a
    NaN): it is the unsigned angle, to which the correction adds 0, 180
    or 270 degrees, never 90.  The unsigned angle lies between 0 and 90
    degrees, and it can be 90.  So the heading lies in [[0,90]] or in
    [[180,360]], and never strictly between 90 and 180. *)
Theorem hdg_range (xpos ypos mid_x mid_y map_width : Z) :
  let t := angle_tangent xpos ypos mid_x mid_y map_width in
  let k := quadrant_correction xpos ypos mid_x mid_y t in
  exists a b : R,
    pointer_dirr xpos ypos mid_x mid_y map_width = Deg a /\
    hdg xpos ypos mid_x mid_y map_width = Deg b /\
    hdg xpos ypos mid_x mid_y map_width = deg_add (Deg a) k /\
    (k = 0 \/ k = 180 \/ k = 270) /\
    (0 <= a <= 90)%R /\
    ((0 <= b <= 90) \/ (180 <= b <= 360))%R /\
    ~ (90 < b < 180)%R.
Proof.
  intros t k.
  assert (Ha : exists a : R,
             pointer_dirr xpos ypos mid_x mid_y map_width = Deg a /\
             (0 <= a <= 90)%R).
  { unfold pointer_dirr. fold t.
    destruct (angle_tangent_cases xpos ypos mid_x mid_y map_width)
      as [[q E] | [E | E]]; fold t in E; rewrite E; simpl.
    - exists (Rabs (atan (Q2R q)) * (180 / PI))%R.
      pose proof (atan_degrees_bound (Q2R q)).
      split; [ reflexivity | lra ].
    - exists (Rabs (PI / 2) * (180 / PI))%R.
      pose proof right_angle_degrees.
      split; [ reflexivity | lra ].
    - exists (Rabs (PI / 2) * (180 / PI))%R.
      pose proof right_angle_degrees.
      split; [ reflexivity | lra ]. }
  destruct Ha as (a & Hd & Hr).
  exists a, (a + IZR k)%R.
  pose proof (quadrant_correction_values xpos ypos mid_x mid_y t) as Hk.
  fold k in Hk.
  pose proof (hdg_as_sum xpos ypos mid_x mid_y map_width a Hd) as Hs.
  fold t in Hs. fold k in Hs.
  split; [ exact Hd | ].
  split; [ exact Hs | ].
  split; [ exact Hs | ].
  split; [ exact Hk | ].
  split; [ exact Hr | ].
  split; destruct Hk as [E | [E | E]]; rewrite E; lra.
Qed.

Lemma angle_tangent_perpendicular :
  angle_tangent 121 188 100 197 200 = PInf.
Proof. vm_compute. reflexivity. Qed.

(** C9, as the specification words it, fails.  The pointer with corners
    (98,193), (102,201) and (121,188) on a map 200 pixels wide has its
    tip at (121,188) and the middle of its base at (100,197); the north
    slope is 2 and the pointer slope is -1/2, so the divisor of the
    tangent is zero, the tangent is an infinity and the heading is
    exactly 90, which is neither in [[0,90)] nor in [[180,360)]. *)
Lemma hdg_exactly_90 :
  pointer_tip (98, 193) (102, 201) (121, 188) =
    {| xpos := 121; ypos := 188; mid_x := 100; mid_y := 197 |} /\
  north_slope 100 197 200 = Fin 2 /\
  pointer_slope 121 188 100 197 = Fin (-10 # 20) /\
  hdg 121 188 100 197 200 = Deg 90 /\
  ~ ((0 <= 90 < 90) \/ (180 <= 90 < 360))%R.
Proof.
  split; [ rewrite pointer_tip_sq_eq; reflexivity | ].
  split; [ reflexivity | ].
  split; [ reflexivity | ].
  split; [ | lra ].
  unfold hdg. rewrite angle_tangent_perpendicular.
  change (100 >? 121) with false. cbv iota.
  simpl. apply Deg_eq, right_angle_degrees.
Qed.

(** ** Normalised position *)

Lemma unit_quotient (x w : Z) :
  0 < w -> 0 <= x <= w ->
  (0 <= inject_Z x / inject_Z w /\ inject_Z x / inject_Z w <= 1)%Q.
Proof.
  intros Hw [H0 H1].
  assert (Hq : (0 < inject_Z w)%Q).
  { change (inject_Z 0 < inject_Z w)%Q. now rewrite <- Zlt_Qlt. }
  split.
  - apply Qle_shift_div_l; [ exact Hq | ].
    rewrite Qmult_0_l. change (inject_Z 0 <= inject_Z x)%Q.
    now rewrite <- Zle_Qle.
  - apply Qle_shift_div_r; [ exact Hq | ].
    rewrite Qmult_1_l. now rewrite <- Zle_Qle.
Qed.

(** C6, as the script has it.  On a map of positive width and height, a
    tip inside the map gets the position
    [(xpos / map_width, (map_height - ypos) / map_height)], and both
    components lie in [[0,1]]. *)
Theorem position_in_unit_interval (xpos ypos map_width map_height : Z) :
  0 < map_width -> 0 < map_height ->
  0 <= xpos <= map_width -> 0 <= ypos <= map_height ->
  position xpos ypos map_width map_height =
    (Fin (inject_Z xpos / inject_Z map_width),
     Fin (inject_Z (map_height - ypos) / inject_Z map_height)) /\
  in_unit_interval (fst (position xpos ypos map_width map_height)) /\
  in_unit_interval (snd (position xpos ypos map_width map_height)).
Proof.
  intros Hw Hh Hx Hy.
  assert (E : position xpos ypos map_width map_height =
              (Fin (inject_Z xpos / inject_Z map_width),
               Fin (inject_Z (map_height - ypos) / inject_Z map_height))).
  { unfold position.
    rewrite !int_true_divide_nonzero by lia.
    replace (Z.abs (ypos - map_height)) with (map_height - ypos) by lia.
    reflexivity. }
  rewrite E. simpl.
  split; [ reflexivity | ].
  split; apply unit_quotient; lia.
Qed.

Lemma position_in_unit_interval_witness :
  position 30 20 100 80 = (Fin (inject_Z 30 / inject_Z 100),
                           Fin (inject_Z (80 - 20) / inject_Z 80)) /\
  in_unit_interval (fst (position 30 20 100 80)) /\
  in_unit_interval (snd (position 30 20 100 80)).
Proof.
  apply (position_in_unit_interval 30 20 100 80); lia.
Defined.

(** C6, as the specification words it, fails on a map of width 0: the tip at
    [x = 0] satisfies [0 <= x <= map_width], and [0 / 0] is a NaN. *)
Lemma position_zero_width_nan :
  0 <= 0 <= 0 /\ 0 <= 2 <= 5 /\
  position 0 2 0 5 = (NaN, Fin (3 # 5)) /\
  ~ in_unit_interval (fst (position 0 2 0 5)).
Proof.
  split; [ lia | ]. split; [ lia | ].
  split; [ reflexivity | ].
  simpl. tauto.
Qed.

(** ** [order_points] *)

Lemma argmin_cons (v w : Z) (l : list Z) :
  argmin (v :: w :: l) =
  if v <=? nth (argmin (w :: l)) (w :: l) 0 then 0%nat
  else S (argmin (w :: l)).
Proof. reflexivity. Qed.

Lemma argmax_cons (v w : Z) (l : list Z) :
  argmax (v :: w :: l) =
  if nth (argmax (w :: l)) (w :: l) 0 <=? v then 0%nat
  else S (argmax (w :: l)).
Proof. reflexivity. Qed.

Lemma argmin_lt_length (l : list Z) :
  l <> [] -> (argmin l < length l)%nat.
Proof.
  induction l as [ | v l IH ]; [ congruence | intros _ ].
  destruct l as [ | w l ]; [ simpl; lia | ].
  rewrite argmin_cons.
  assert (argmin (w :: l) < length (w :: l))%nat by (apply IH; discriminate).
  destruct (_ <=? _); simpl in *; lia.
Qed.

Lemma argmax_lt_length (l : list Z) :
  l <> [] -> (argmax l < length l)%nat.
Proof.
  induction l as [ | v l IH ]; [ congruence | intros _ ].
  destruct l as [ | w l ]; [ simpl; lia | ].
  rewrite argmax_cons.
  assert (argmax (w :: l) < length (w :: l))%nat by (apply IH; discriminate).
  destruct (_ <=? _); simpl in *; lia.
Qed.

Lemma argmin_least (l : list Z) (v : Z) :
  In v l -> nth (argmin l) l 0 <= v.
Proof.
  induction l as [ | u l IH ]; [ contradiction | ].
  destruct l as [ | w l ].
  - intros [<- | []]. simpl. lia.
  - rewrite argmin_cons.
    destruct (Z.leb_spec u (nth (argmin (w :: l)) (w :: l) 0)) as [H | H].
    + intros [<- | Hin]; [ simpl; lia | ].
      specialize (IH Hin). simpl nth at 1. lia.
    + intros [<- | Hin].
      * change (nth (S ?j) (u :: ?t) 0) with (nth j t 0). lia.
      * change (nth (S ?j) (u :: ?t) 0) with (nth j t 0). now apply IH.
Qed.

Lemma argmax_greatest (l : list Z) (v : Z) :
  In v l -> v <= nth (argmax l) l 0.
Proof.
  induction l as [ | u l IH ]; [ contradiction | ].
  destruct l as [ | w l ].
  - intros [<- | []]. simpl. lia.
  - rewrite argmax_cons.
    destruct (Z.leb_spec (nth (argmax (w :: l)) (w :: l) 0) u) as [H | H].
    + intros [<- | Hin]; [ simpl; lia | ].
      specialize (IH Hin). simpl nth at 1. lia.
    + intros [<- | Hin].
      * change (nth (S ?j) (u :: ?t) 0) with (nth j t 0). lia.
      * change (nth (S ?j) (u :: ?t) 0) with (nth j t 0). now apply IH.
Qed.

(** Reading the list of values at an index of the list of points. *)
Lemma nth_map_value {A : Type} (g : A -> Z) (l : list A) (d : A) (i : nat) :
  (i < length l)%nat -> nth i (map g l) 0 = g (nth i l d).
Proof.
  intros Hi. rewrite (nth_indep (map g l) 0 (g d)).
  - apply map_nth.
  - now rewrite length_map.
Qed.

(** [argmin] and [argmax] only look at how the values compare. *)
Lemma argmin_map_equiv {A : Type} (g h : A -> Z) (l : list A) :
  (forall a b, g a <= g b <-> h a <= h b) ->
  argmin (map g l) = argmin (map h l).
Proof.
  intros Hgh. induction l as [ | a l IH ]; [ reflexivity | ].
  destruct l as [ | b l ]; [ reflexivity | ].
  change (argmin (g a :: map g (b :: l)) = argmin (h a :: map h (b :: l))).
  change (map g (b :: l)) with (g b :: map g l) at 1.
  change (map h (b :: l)) with (h b :: map h l) at 1.
  rewrite !argmin_cons.
  change (g b :: map g l) with (map g (b :: l)).
  change (h b :: map h l) with (map h (b :: l)).
  rewrite <- IH.
  assert (Hj : (argmin (map g (b :: l)) < length (b :: l))%nat).
  { rewrite <- (length_map g). apply argmin_lt_length. discriminate. }
  rewrite (nth_map_value g (b :: l) a _ Hj), (nth_map_value h (b :: l) a _ Hj).
  specialize (Hgh a (nth (argmin (map g (b :: l))) (b :: l) a)).
  destruct (Z.leb_spec (g a) (g (nth (argmin (map g (b :: l))) (b :: l) a)));
    destruct (Z.leb_spec (h a) (h (nth (argmin (map g (b :: l))) (b :: l) a)));
    try reflexivity; lia.
Qed.

Lemma argmax_map_equiv {A : Type} (g h : A -> Z) (l : list A) :
  (forall a b, g a <= g b <-> h a <= h b) ->
  argmax (map g l) = argmax (map h l).
Proof.
  intros Hgh. induction l as [ | a l IH ]; [ reflexivity | ].
  destruct l as [ | b l ]; [ reflexivity | ].
  change (argmax (g a :: map g (b :: l)) = argmax (h a :: map h (b :: l))).
  change (map g (b :: l)) with (g b :: map g l) at 1.
  change (map h (b :: l)) with (h b :: map h l) at 1.
  rewrite !argmax_cons.
  change (g b :: map g l) with (map g (b :: l)).
  change (h b :: map h l) with (map h (b :: l)).
  rewrite <- IH.
  assert (Hj : (argmax (map g (b :: l)) < length (b :: l))%nat).
  { rewrite <- (length_map g). apply argmax_lt_length. discriminate. }
  rewrite (nth_map_value g (b :: l) a _ Hj), (nth_map_value h (b :: l) a _ Hj).
  specialize (Hgh (nth (argmax (map g (b :: l))) (b :: l) a) a).
  destruct (Z.leb_spec (g (nth (argmax (map g (b :: l))) (b :: l) a)) (g a));
    destruct (Z.leb_spec (h (nth (argmax (map g (b :: l))) (b :: l) a)) (h a));
    try reflexivity; lia.
Qed.

(** The point picked at [argmin] of the values of [f] attains the
    minimum of [f]; likewise for [argmax]. *)
Lemma nth_argmin_attains (f : Point -> Z) (pts : list Point) (p0 : Point) :
  pts <> [] ->
  attains_min f pts (nth (argmin (map f pts)) pts p0).
Proof.
  intros Hne.
  assert (Hj : (argmin (map f pts) < length pts)%nat).
  { rewrite <- (length_map f). apply argmin_lt_length.
    destruct pts; [ congruence | discriminate ]. }
  split.
  - now apply nth_In.
  - intros q Hq. rewrite <- (nth_map_value f pts p0 _ Hj).
    apply argmin_least. now apply in_map.
Qed.

Lemma nth_argmax_attains (f : Point -> Z) (pts : list Point) (p0 : Point) :
  pts <> [] ->
  attains_max f pts (nth (argmax (map f pts)) pts p0).
Proof.
  intros Hne.
  assert (Hj : (argmax (map f pts) < length pts)%nat).
  { rewrite <- (length_map f). apply argmax_lt_length.
    destruct pts; [ congruence | discriminate ]. }
  split.
  - now apply nth_In.
  - intros q Hq. rewrite <- (nth_map_value f pts p0 _ Hj).
    apply argmax_greatest. now apply in_map.
Qed.

Lemma order_points_attains (pts : list Point) :
  pts <> [] ->
  exists tl tr br bl : Point,
    order_points pts = Some [tl; tr; br; bl] /\
    attains_min coord_sum pts tl /\
    attains_min coord_diff pts tr /\
    attains_max coord_sum pts br /\
    attains_max coord_diff pts bl.
Proof.
  intros Hne. destruct pts as [ | p0 rest ] eqn:E; [ congruence | ].
  rewrite <- E in *.
  exists (nth (argmin (map coord_sum pts)) pts p0),
         (nth (argmin (map coord_diff pts)) pts p0),
         (nth (argmax (map coord_sum pts)) pts p0),
         (nth (argmax (map coord_diff pts)) pts p0).
  split.
  - rewrite E at 1. unfold order_points. rewrite <- E. reflexivity.
  - auto using nth_argmin_attains, nth_argmax_attains.
Qed.

(** C3, as the script has it.  Of the points given, [order_points]
    labels top-left one with the smallest [x + y], bottom-right one
    with the largest [x + y], top-right one with the smallest [y - x]
    (that is, the largest [x - y]) and bottom-left one with the largest
    [y - x] (that is, the smallest [x - y]). *)
Theorem order_points_extremes (pts : list Point) :
  pts <> [] ->
  exists tl tr br bl : Point,
    order_points pts = Some [tl; tr; br; bl] /\
    attains_min coord_sum pts tl /\
    attains_max coord_sum pts br /\
    attains_min coord_diff pts tr /\
    attains_max coord_diff pts bl /\
    attains_max x_minus_y pts tr /\
    attains_min x_minus_y pts bl.
Proof.
  intros Hne.
  destruct (order_points_attains pts Hne)
    as (tl & tr & br & bl & E & Htl & Htr & Hbr & Hbl).
  exists tl, tr, br, bl.
  repeat (split; [ assumption | ]).
  split.
  - destruct Htr as [Hin Hmin]. split; [ exact Hin | ].
    intros q Hq. specialize (Hmin q Hq).
    unfold coord_diff, x_minus_y in *. lia.
  - destruct Hbl as [Hin Hmax]. split; [ exact Hin | ].
    intros q Hq. specialize (Hmax q Hq).
    unfold coord_diff, x_minus_y in *. lia.
Qed.

Lemma order_points_extremes_witness :
  exists tl tr br bl : Point,
    order_points [(12, 9); (208, 14); (203, 151); (7, 147)] =
      Some [tl; tr; br; bl] /\
    attains_min coord_sum [(12, 9); (208, 14); (203, 151); (7, 147)] tl /\
    attains_max coord_sum [(12, 9); (208, 14); (203, 151); (7, 147)] br /\
    attains_min coord_diff [(12, 9); (208, 14); (203, 151); (7, 147)] tr /\
    attains_max coord_diff [(12, 9); (208, 14); (203, 151); (7, 147)] bl /\
    attains_max x_minus_y [(12, 9); (208, 14); (203, 151); (7, 147)] tr /\
    attains_min x_minus_y [(12, 9); (208, 14); (203, 151); (7, 147)] bl.
Proof.
  apply (order_points_extremes [(12, 9); (208, 14); (203, 151); (7, 147)]).
  discriminate.
Defined.

(** C3, as the specification words it, fails.  On the square with the corners
    (0,0), (10,0), (10,10), (0,10) the point labelled top-right is
    (10,0), whose [x - y] is the largest, not the smallest, and the
    point labelled bottom-left is (0,10), whose [x - y] is the
    smallest, not the largest. *)
Lemma order_points_square :
  order_points [(0, 0); (10, 0); (10, 10); (0, 10)] =
    Some [(0, 0); (10, 0); (10, 10); (0, 10)] /\
  ~ attains_min x_minus_y [(0, 0); (10, 0); (10, 10); (0, 10)] (10, 0) /\
  ~ attains_max x_minus_y [(0, 0); (10, 0); (10, 10); (0, 10)] (0, 10).
Proof.
  split; [ reflexivity | ].
  split; intros [_ H].
  - specialize (H (0, 10) ltac:(simpl; tauto)). vm_compute in H. auto.
  - specialize (H (10, 0) ltac:(simpl; tauto)). vm_compute in H. auto.
Qed.

(** *** Order of the input, translation and scaling *)

Lemma attains_min_perm (f : Point -> Z) (pts pts' : list Point) (p : Point) :
  Permutation pts pts' -> attains_min f pts' p -> attains_min f pts p.
Proof.
  intros HP [Hin Hmin]. split.
  - apply Permutation_in with pts'; [ now apply Permutation_sym | exact Hin ].
  - intros q Hq. apply Hmin. now apply Permutation_in with pts.
Qed.

Lemma attains_max_perm (f : Point -> Z) (pts pts' : list Point) (p : Point) :
  Permutation pts pts' -> attains_max f pts' p -> attains_max f pts p.
Proof.
  intros HP [Hin Hmax]. split.
  - apply Permutation_in with pts'; [ now apply Permutation_sym | exact Hin ].
  - intros q Hq. apply Hmax. now apply Permutation_in with pts.
Qed.

Lemma order_points_permutation (pts pts' : list Point) :
  unique_extremes pts -> Permutation pts pts' ->
  order_points pts' = order_points pts.
Proof.
  intros (U1 & U2 & U3 & U4) HP.
  destruct pts as [ | p0 rest ].
  - apply Permutation_nil in HP. subst. reflexivity.
  - assert (Hne : p0 :: rest <> []) by discriminate.
    assert (Hne' : pts' <> []).
    { intros ->. apply Permutation_sym, Permutation_nil in HP. congruence. }
    destruct (order_points_attains _ Hne)
      as (tl & tr & br & bl & E & Htl & Htr & Hbr & Hbl).
    destruct (order_points_attains _ Hne')
      as (tl' & tr' & br' & bl' & E' & Htl' & Htr' & Hbr' & Hbl').
    rewrite E, E'.
    rewrite (U1 tl' tl), (U3 tr' tr), (U2 br' br), (U4 bl' bl);
      eauto using attains_min_perm, attains_max_perm.
Qed.

(** A motion of the plane that keeps the order of the sums and of the
    differences keeps the labels. *)
Lemma order_points_map (T : Point -> Point) (pts : list Point) :
  (forall a b, coord_sum (T a) <= coord_sum (T b) <->
               coord_sum a <= coord_sum b) ->
  (forall a b, coord_diff (T a) <= coord_diff (T b) <->
               coord_diff a <= coord_diff b) ->
  order_points (map T pts) = option_map (map T) (order_points pts).
Proof.
  intros Hs Hd. destruct pts as [ | p0 rest ] eqn:E; [ reflexivity | ].
  rewrite <- E.
  assert (E1 : order_points (map T pts) =
    Some [ nth (argmin (map coord_sum (map T pts))) (map T pts) (T p0);
           nth (argmin (map coord_diff (map T pts))) (map T pts) (T p0);
           nth (argmax (map coord_sum (map T pts))) (map T pts) (T p0);
           nth (argmax (map coord_diff (map T pts))) (map T pts) (T p0) ]).
  { rewrite E. reflexivity. }
  assert (E2 : order_points pts =
    Some [ nth (argmin (map coord_sum pts)) pts p0;
           nth (argmin (map coord_diff pts)) pts p0;
           nth (argmax (map coord_sum pts)) pts p0;
           nth (argmax (map coord_diff pts)) pts p0 ]).
  { rewrite E. reflexivity. }
  rewrite E1, E2. simpl option_map. simpl map at 9.
  rewrite !map_map, !map_nth.
  rewrite (argmin_map_equiv (fun p => coord_sum (T p)) coord_sum pts Hs).
  rewrite (argmin_map_equiv (fun p => coord_diff (T p)) coord_diff pts Hd).
  rewrite (argmax_map_equiv (fun p => coord_sum (T p)) coord_sum pts Hs).
  rewrite (argmax_map_equiv (fun p => coord_diff (T p)) coord_diff pts Hd).
  reflexivity.
Qed.

Lemma order_points_translate (dx dy : Z) (pts : list Point) :
  order_points (map (translate dx dy) pts) =
  option_map (map (translate dx dy)) (order_points pts).
Proof.
  apply order_points_map; intros a b;
    unfold coord_sum, coord_diff, translate, px, py; simpl; lia.
Qed.

Lemma order_points_scale (k : Z) (pts : list Point) :
  0 < k ->
  order_points (map (scale k) pts) =
  option_map (map (scale k)) (order_points pts).
Proof.
  intros Hk.
  apply order_points_map; intros a b;
    unfold coord_sum, coord_diff, scale, px, py; simpl; nia.
Qed.

(** C4, as the script has it.  When the smallest and the largest
    [x + y] and the smallest and the largest [y - x] each belong to one
    point only, [order_points] gives the same labelled points whatever
    the order of the input.  Without any condition, the labels follow
    the points through a translation and through a scaling by a
    positive factor; two lists of pixel points that are the same up to
    a positive rational factor [a / b] are labelled alike. *)
Theorem order_points_invariance (pts pts' : list Point) (dx dy k a b : Z) :
  (unique_extremes pts -> Permutation pts pts' ->
   order_points pts' = order_points pts) /\
  order_points (map (translate dx dy) pts) =
    option_map (map (translate dx dy)) (order_points pts) /\
  (0 < k ->
   order_points (map (scale k) pts) =
     option_map (map (scale k)) (order_points pts)) /\
  (0 < a -> 0 < b -> map (scale a) pts = map (scale b) pts' ->
   option_map (map (scale a)) (order_points pts) =
     option_map (map (scale b)) (order_points pts')).
Proof.
  split; [ apply order_points_permutation | ].
  split; [ apply order_points_translate | ].
  split; [ apply order_points_scale | ].
  intros Ha Hb E.
  rewrite <- !order_points_scale by assumption. now rewrite E.
Qed.

(** Takes apart the membership of two candidate extreme points of a
    list given in full, and compares their values with every point. *)
Ltac use_at_all H l :=
  lazymatch l with
  | ?x :: ?r => pose proof (H x ltac:(simpl; tauto)); use_at_all H r
  | _ => idtac
  end.

Ltac solve_unique_extreme l :=
  let p := fresh "p" in
  let q := fresh "q" in
  let Hp := fresh "Hp" in
  let Hq := fresh "Hq" in
  let Hpm := fresh "Hpm" in
  let Hqm := fresh "Hqm" in
  intros p q [Hp Hpm] [Hq Hqm];
  use_at_all Hpm l; use_at_all Hqm l; clear Hpm Hqm;
  simpl in Hp, Hq;
  repeat match goal with
         | H : _ \/ _ |- _ => destruct H
         | H : False |- _ => destruct H
         end;
  subst; try reflexivity; exfalso;
  unfold coord_sum, coord_diff, px, py in *; simpl in *; lia.

Lemma order_points_invariance_witness :
  order_points [(203, 151); (12, 9); (7, 147); (208, 14)] =
    order_points [(12, 9); (208, 14); (203, 151); (7, 147)] /\
  order_points (map (translate 5 (-3))
                  [(12, 9); (208, 14); (203, 151); (7, 147)]) =
    option_map (map (translate 5 (-3)))
      (order_points [(12, 9); (208, 14); (203, 151); (7, 147)]) /\
  order_points (map (scale 3) [(12, 9); (208, 14); (203, 151); (7, 147)]) =
    option_map (map (scale 3))
      (order_points [(12, 9); (208, 14); (203, 151); (7, 147)]) /\
  option_map (map (scale 3))
    (order_points [(12, 8); (208, 14); (204, 152); (6, 146)]) =
  option_map (map (scale 2))
    (order_points [(18, 12); (312, 21); (306, 228); (9, 219)]).
Proof.
  pose proof (order_points_invariance
                [(12, 9); (208, 14); (203, 151); (7, 147)]
                [(203, 151); (12, 9); (7, 147); (208, 14)]
                5 (-3) 3 1 1) as (Hperm & Htr & Hsc & _).
  pose proof (order_points_invariance
                [(12, 8); (208, 14); (204, 152); (6, 146)]
                [(18, 12); (312, 21); (306, 228); (9, 219)]
                0 0 1 3 2) as (_ & _ & _ & Hq).
  split; [ | split; [ | split ] ].
  - apply Hperm.
    + repeat split;
        solve_unique_extreme [(12, 9); (208, 14); (203, 151); (7, 147)].
    + apply perm_trans with [(12, 9); (203, 151); (208, 14); (7, 147)].
      * apply perm_skip, perm_swap.
      * apply perm_trans with [(203, 151); (12, 9); (208, 14); (7, 147)].
        -- apply perm_swap.
        -- do 2 apply perm_skip. apply perm_swap.
  - exact Htr.
  - apply Hsc. lia.
  - apply Hq; [ lia | lia | reflexivity ].
Defined.

(** C4, as the specification words it, fails.  The square standing on a corner,
    with the corners (100,0), (200,100), (100,200), (0,100), is convex;
    two of its corners share the smallest [x + y] and two share the
    smallest [y - x], and [order_points] takes the first it meets: with
    the first two corners exchanged the top-right label moves from
    (100,0) to (200,100). *)
Lemma order_points_depends_on_order :
  convex_quad (100, 0) (200, 100) (100, 200) (0, 100) /\
  Permutation [(100, 0); (200, 100); (100, 200); (0, 100)]
              [(200, 100); (100, 0); (100, 200); (0, 100)] /\
  order_points [(100, 0); (200, 100); (100, 200); (0, 100)] =
    Some [(100, 0); (100, 0); (200, 100); (100, 200)] /\
  order_points [(200, 100); (100, 0); (100, 200); (0, 100)] =
    Some [(100, 0); (200, 100); (200, 100); (100, 200)] /\
  order_points [(200, 100); (100, 0); (100, 200); (0, 100)] <>
    order_points [(100, 0); (200, 100); (100, 200); (0, 100)].
Proof.
  split; [ left; vm_compute; repeat split; reflexivity | ].
  split; [ apply perm_swap | ].
  split; [ reflexivity | ].
  split; [ reflexivity | ].
  vm_compute. discriminate.
Qed.

(** ** [warp_image] *)

Lemma R_int_floor (r : R) :
  (0 <= r)%R -> (IZR (R_int r) <= r < IZR (R_int r) + 1)%R.
Proof.
  intros Hr. unfold R_int.
  destruct (Rle_dec 0 r) as [_ | N]; [ | contradiction ].
  pose proof (base_Int_part r). lra.
Qed.

Lemma R_int_sqrt (n : Z) : 0 <= n -> R_int (sqrt (IZR n)) = Z.sqrt n.
Proof.
  intros Hn. unfold R_int.
  destruct (Rle_dec 0 (sqrt (IZR n))) as [_ | N];
    [ | exfalso; apply N, sqrt_pos ].
  symmetry. apply Int_part_spec.
  pose proof (Z.sqrt_spec n Hn) as [Hlo Hhi].
  pose proof (Z.sqrt_nonneg n) as Hs.
  assert (Hs' : (0 <= IZR (Z.sqrt n))%R) by now apply IZR_le.
  assert (Hn' : (0 <= IZR n)%R) by now apply IZR_le.
  split.
  - assert (H : (sqrt (IZR n) < IZR (Z.sqrt n) + 1)%R).
    { rewrite <- (sqrt_square (IZR (Z.sqrt n) + 1)) by lra.
      apply sqrt_lt_1; [ exact Hn' | nra | ].
      rewrite <- plus_IZR, <- mult_IZR. apply IZR_lt. lia. }
    lra.
  - rewrite <- (sqrt_square (IZR (Z.sqrt n))) by exact Hs'.
    apply sqrt_le_1; [ nra | exact Hn' | ].
    rewrite <- mult_IZR. now apply IZR_le.
Qed.

Lemma distance_sq_dist (a b : Point) :
  distance_of_points_float32 a b = sqrt (IZR (sq_dist a b)).
Proof. reflexivity. Qed.

Lemma R_int_distance (a b : Point) :
  R_int (distance_of_points_float32 a b) = Z.sqrt (sq_dist a b).
Proof. rewrite distance_sq_dist. apply R_int_sqrt, sq_dist_nonneg. Qed.

Lemma distance_nonneg (a b : Point) :
  (0 <= distance_of_points_float32 a b)%R.
Proof. apply sqrt_pos. Qed.



Lemma warp_image_sq_eq (points : list Point) :
  warp_image points = warp_image_sq points.
Proof.
  unfold warp_image, warp_image_sq.
  destruct (order_points points) as [ [ | tl [ | tr [ | br [ | bl [ | ] ] ] ] ] | ];
    try reflexivity.
  now rewrite !R_int_distance.
Qed.

(** The larger of two integer parts is the integer part of the larger
    of the two lengths. *)
Lemma max_int_part (x y : R) :
  (0 <= x)%R -> (0 <= y)%R ->
  (IZR (Z.max (R_int x) (R_int y)) <= Rmax x y
   < IZR (Z.max (R_int x) (R_int y)) + 1)%R.
Proof.
  intros Hx Hy.
  pose proof (R_int_floor x Hx) as Fx.
  pose proof (R_int_floor y Hy) as Fy.
  destruct (Z.max_spec (R_int x) (R_int y)) as [[Hlt E] | [Hle E]];
    rewrite E; unfold Rmax; destruct (Rle_dec x y).
  - lra.
  - assert (IZR (R_int x) + 1 <= IZR (R_int y))%R
      by (rewrite <- plus_IZR; apply IZR_le; lia).
    lra.
  - assert (IZR (R_int y) <= IZR (R_int x))%R by now apply IZR_le.
    destruct (Z.eq_dec (R_int y) (R_int x)) as [Q | Q].
    + rewrite <- Q in *. lra.
    + assert (IZR (R_int y) + 1 <= IZR (R_int x))%R
        by (rewrite <- plus_IZR; apply IZR_le; lia).
      lra.
  - lra.
Qed.




(** ** [find_vertices] *)

Section FindVerticesFacts.

Context {Image Contour : Type}.
Variable findContours : Image -> list Contour.
Variable contourArea : Contour -> Q.
Variable arcLength : Contour -> R.
Variable approxPolyDP : Contour -> R -> list Point.

Let step := largest_step Contour contourArea.

(** What the loop keeps: [area_max] never decreases and bounds the
    areas met so far; [big_cntr], once assigned, is one of the
    contours met and [area_max] is its area. *)
Lemma largest_loop (contours : list Contour) (st : Q * option Contour) :
  let st' := fold_left step contours st in
  (fst st <= fst st')%Q /\
  (forall c, In c contours -> (contourArea c <= fst st')%Q) /\
  ((st' = st /\ forall c, In c contours -> (contourArea c <= fst st)%Q) \/
   (exists big, snd st' = Some big /\ In big contours /\
                fst st' = contourArea big)).
Proof.
  revert st. induction contours as [ | c rest IH ]; intros st; simpl.
  - split; [ apply Qle_refl | ]. split; [ contradiction | ].
    left. split; [ reflexivity | contradiction ].
  - specialize (IH (step st c)).
    destruct IH as (Hmono & Hall & Hbig).
    assert (Hstep : (fst st <= fst (step st c))%Q /\
                    (contourArea c <= fst (step st c))%Q /\
                    (step st c = st \/ step st c = (contourArea c, Some c))).
    { unfold step, largest_step.
      destruct (contourArea c ?= fst st)%Q eqn:Ec.
      - apply Qeq_alt in Ec. repeat split; try (right; reflexivity);
          [ apply Qle_refl | rewrite Ec; apply Qle_refl | now left ].
      - apply Qlt_alt in Ec. repeat split;
          [ apply Qle_refl | now apply Qlt_le_weak | now left ].
      - apply Qgt_alt in Ec. simpl. repeat split;
          [ now apply Qlt_le_weak | apply Qle_refl | now right ]. }
    destruct Hstep as (Hs1 & Hs2 & Hs3).
    split; [ eapply Qle_trans; eassumption | ].
    split.
    + intros c' [<- | Hin]; [ eapply Qle_trans; eassumption | now apply Hall ].
    + destruct Hbig as [[E Hle] | (big & Eb & Hin & Ea)].
      * destruct Hs3 as [E3 | E3].
        -- left. split; [ congruence | ].
           intros c' [<- | Hin]; [ now rewrite E3 in Hs2 | ].
           rewrite <- E3. now apply Hle.
        -- right. exists c. rewrite E, E3. simpl. auto.
      * right. exists big. auto.
Qed.

(** With at least one contour, and areas that are not negative,
    [find_vertices] returns the simplified polygon of a contour of
    largest area. *)
Lemma find_vertices_returns (image : Image) :
  findContours image <> [] ->
  (forall c, In c (findContours image) -> (0 <= contourArea c)%Q) ->
  exists big,
    In big (findContours image) /\
    (forall c, In c (findContours image) ->
               (contourArea c <= contourArea big)%Q) /\
    find_vertices Image Contour findContours contourArea arcLength
      approxPolyDP image =
    Returns (approxPolyDP big (0.1 * arcLength big)%R).
Proof.
  intros Hne Hpos. unfold find_vertices, largest_contour.
  pose proof (largest_loop (findContours image) ((-1)%Q, None))
    as (_ & Hall & Hbig).
  fold step. cbv zeta in Hall, Hbig.
  destruct Hbig as [[_ Hle] | (big & Eb & Hin & Ea)].
  - exfalso. destruct (findContours image) as [ | c rest ]; [ congruence | ].
    specialize (Hle c (or_introl eq_refl)).
    specialize (Hpos c (or_introl eq_refl)).
    simpl in Hle.
    assert (Habs : (0 <= -1)%Q) by (eapply Qle_trans; eassumption).
    unfold Qle in Habs. simpl in Habs. lia.
  - exists big. split; [ exact Hin | ].
    split; [ intros c Hc; rewrite <- Ea; now apply Hall | ].
    rewrite Eb. reflexivity.
Qed.

(** C7, as the script has it.  When no contour is found the loop
    assigns nothing to [big_cntr], and the call ends with the
    interpreter's [UnboundLocalError] for that name: no polygon is
    returned, neither a default one nor any other, and the exception
    is not the "no object found" condition of the specification. *)
Theorem find_vertices_no_contour (image : Image) :
  findContours image = [] ->
  find_vertices Image Contour findContours contourArea arcLength
    approxPolyDP image = Raises (UnboundLocalError "big_cntr") /\
  (forall polygon,
      find_vertices Image Contour findContours contourArea arcLength
        approxPolyDP image <> Returns polygon) /\
  find_vertices Image Contour findContours contourArea arcLength
    approxPolyDP image <> Raises SceneError.
Proof.
  intros E. unfold find_vertices. rewrite E. simpl.
  repeat split; intros; discriminate.
Qed.

End FindVerticesFacts.

(** An image without any contour, for contours given as lists of
    points. *)
Lemma find_vertices_no_contour_witness :
  find_vertices unit (list Point) (fun _ => []) (fun _ => 0%Q)
    (fun _ => 0%R) (fun c _ => c) tt =
    Raises (UnboundLocalError "big_cntr") /\
  (forall polygon,
      find_vertices unit (list Point) (fun _ => []) (fun _ => 0%Q)
        (fun _ => 0%R) (fun c _ => c) tt <> Returns polygon) /\
  find_vertices unit (list Point) (fun _ => []) (fun _ => 0%Q)
    (fun _ => 0%R) (fun c _ => c) tt <> Raises SceneError.
Proof.
  apply (find_vertices_no_contour (fun _ : unit => @nil (list Point))
           (fun _ => 0%Q) (fun _ => 0%R) (fun c _ => c) tt).
  reflexivity.
Defined.

(** C7, as the specification words it, fails: on an image without any contour
    [find_vertices] does not raise the "no object found" condition, it
    runs into the unassigned [big_cntr]. *)
Lemma find_vertices_no_scene_error :
  find_vertices unit (list Point) (fun _ => []) (fun _ => 0%Q)
    (fun _ => 0%R) (fun c _ => c) tt <> Raises SceneError /\
  find_vertices unit (list Point) (fun _ => []) (fun _ => 0%Q)
    (fun _ => 0%R) (fun c _ => c) tt =
    Raises (UnboundLocalError "big_cntr").
Proof.
  split; [ discriminate | reflexivity ].
Qed.

(** * Further properties of the script *)

(** ** [segment_object] *)

Lemma zip_with_maps {A B C D : Type} (f : B -> C -> D)
    (g : A -> B) (h : A -> C) (l : list A) :
  zip_with f (map g l) (map h l) = map (fun a => f (g a) (h a)) l.
Proof.
  induction l as [ | a l IH ]; [ reflexivity | ].
  simpl. now rewrite IH.
Qed.

Lemma zip_with_map_r {A B C : Type} (f : A -> B -> C)
    (g : A -> B) (l : list A) :
  zip_with f l (map g l) = map (fun a => f a (g a)) l.
Proof.
  rewrite <- (map_id l) at 1. apply zip_with_maps.
Qed.

Lemma inRange_values (p lowerb upperb : pixel) :
  inRange p lowerb upperb = 0 \/ inRange p lowerb upperb = 255.
Proof.
  unfold inRange. destruct p as [[c1 c2] c3], lowerb as [[l1 l2] l3],
    upperb as [[u1 u2] u3].
  destruct (_ && _); [ now right | now left ].
Qed.

Lemma pixel_and_diag (p : pixel) : pixel_and p p = p.
Proof.
  destruct p as [[p1 p2] p3]. unfold pixel_and. now rewrite !Z.land_diag.
Qed.

Lemma segment_object_map (cvt : pixel -> pixel) (im : image)
    (lower_bound upper_bound : Z) (remove_object : bool) :
  segment_object cvt im lower_bound upper_bound remove_object =
  map (map (segment_pixel cvt lower_bound upper_bound remove_object)) im.
Proof.
  unfold segment_object.
  assert (E : forall G : pixel -> Z,
             zip_with (zip_with (fun p m => bitwise_and p p m)) im
               (map (map G) im) =
             map (map (fun p => bitwise_and p p (G p))) im).
  { intros G. rewrite zip_with_map_r. apply map_ext.
    intros row. apply zip_with_map_r. }
  destruct remove_object.
  - rewrite !map_map.
    rewrite (map_ext _ (map (fun p =>
               255 - inRange (cvt p) (lower_bound, 50, 30)
                       (upper_bound, 255, 255))))
      by (intros row; now rewrite !map_map).
    rewrite E. apply map_ext. intros row. apply map_ext. intros p.
    unfold segment_pixel, in_colour_range, bitwise_and.
    rewrite pixel_and_diag.
    destruct (inRange_values (cvt p) (lower_bound, 50, 30)
                (upper_bound, 255, 255)) as [H | H]; rewrite H; reflexivity.
  - rewrite !map_map.
    rewrite (map_ext _ (map (fun p =>
               inRange (cvt p) (lower_bound, 50, 30)
                 (upper_bound, 255, 255))))
      by (intros row; now rewrite !map_map).
    rewrite E. apply map_ext. intros row. apply map_ext. intros p.
    unfold segment_pixel, in_colour_range, bitwise_and.
    rewrite pixel_and_diag.
    destruct (inRange_values (cvt p) (lower_bound, 50, 30)
                (upper_bound, 255, 255)) as [H | H]; rewrite H; reflexivity.
Qed.

(** X1.  [segment_object] works pixel by pixel and keeps the shape of
    the image: a pixel whose HSV value has its hue between the bounds,
    its saturation at least 50 and its value at least 30 is kept
    unchanged and any other pixel becomes black; with [remove_object]
    it is the other way round. *)
Theorem segment_object_pixelwise (cvt : pixel -> pixel) (im : image)
    (lower_bound upper_bound : Z) (remove_object : bool) :
  0 <= lower_bound <= 255 -> 0 <= upper_bound <= 255 ->
  segment_object cvt im lower_bound upper_bound remove_object =
    map (map (fun p =>
      let '(h, s, v) := cvt p in
      let selected := (lower_bound <=? h) && (h <=? upper_bound)
                      && (50 <=? s) && (s <=? 255)
                      && (30 <=? v) && (v <=? 255) in
      if xorb selected remove_object then p else black)) im /\
  length (segment_object cvt im lower_bound upper_bound remove_object) =
    length im /\
  map (@length pixel)
    (segment_object cvt im lower_bound upper_bound remove_object) =
    map (@length pixel) im.
Proof.
  intros _ _. rewrite segment_object_map.
  split; [ | split ].
  - apply map_ext. intros row. apply map_ext. intros p.
    unfold segment_pixel, in_colour_range, inRange.
    destruct (cvt p) as [[h s] v].
    destruct (_ && _); reflexivity.
  - apply length_map.
  - rewrite map_map. apply map_ext. intros row. apply length_map.
Qed.

Lemma segment_object_pixelwise_witness :
  segment_object (fun p => p) [[(100, 60, 40); (10, 60, 40)]] 97 107 true =
    map (map (fun p =>
      let '(h, s, v) := p in
      let selected := (97 <=? h) && (h <=? 107)
                      && (50 <=? s) && (s <=? 255)
                      && (30 <=? v) && (v <=? 255) in
      if xorb selected true then p else black))
      [[(100, 60, 40); (10, 60, 40)]] /\
  length (segment_object (fun p => p)
            [[(100, 60, 40); (10, 60, 40)]] 97 107 true) =
    length [[(100, 60, 40); (10, 60, 40)]] /\
  map (@length pixel)
    (segment_object (fun p => p) [[(100, 60, 40); (10, 60, 40)]] 97 107 true) =
    map (@length pixel) [[(100, 60, 40); (10, 60, 40)]].
Proof.
  apply (segment_object_pixelwise (fun p => p)
           [[(100, 60, 40); (10, 60, 40)]] 97 107 true); lia.
Defined.

Lemma pixel_or_black_r (p : pixel) : pixel_or p black = p.
Proof.
  destruct p as [[p1 p2] p3]. unfold pixel_or, black.
  now rewrite !Z.lor_0_r.
Qed.

Lemma pixel_or_black_l (p : pixel) : pixel_or black p = p.
Proof.
  destruct p as [[p1 p2] p3]. unfold pixel_or, black.
  now rewrite !Z.lor_0_l.
Qed.

Lemma pixel_and_black_r (p : pixel) : pixel_and p black = black.
Proof.
  destruct p as [[p1 p2] p3]. unfold pixel_and, black.
  now rewrite !Z.land_0_r.
Qed.

Lemma pixel_and_black_l (p : pixel) : pixel_and black p = black.
Proof.
  destruct p as [[p1 p2] p3]. unfold pixel_and, black.
  now rewrite !Z.land_0_l.
Qed.

(** X2.  With the same bounds, the image with the object removed and
    the image with only the object kept are complementary: at every
    position one of them has the pixel of the source and the other is
    black, so their disjunction gives the source image back and their
    conjunction is black everywhere. *)
Theorem segment_object_complement (cvt : pixel -> pixel) (im : image)
    (lower_bound upper_bound : Z) :
  0 <= lower_bound <= 255 -> 0 <= upper_bound <= 255 ->
  zip_with (zip_with pixel_or)
    (segment_object cvt im lower_bound upper_bound true)
    (segment_object cvt im lower_bound upper_bound false) = im /\
  zip_with (zip_with pixel_and)
    (segment_object cvt im lower_bound upper_bound true)
    (segment_object cvt im lower_bound upper_bound false) =
    map (map (fun _ => black)) im.
Proof.
  intros _ _. rewrite !segment_object_map. rewrite !zip_with_maps.
  split.
  - rewrite <- (map_id im) at 2. apply map_ext. intros row.
    rewrite zip_with_maps. rewrite <- (map_id row) at 2.
    apply map_ext. intros p. unfold segment_pixel.
    destruct (in_colour_range cvt lower_bound upper_bound p); simpl;
      [ apply pixel_or_black_l | apply pixel_or_black_r ].
  - apply map_ext. intros row.
    rewrite zip_with_maps. apply map_ext. intros p. unfold segment_pixel.
    destruct (in_colour_range cvt lower_bound upper_bound p); simpl;
      [ apply pixel_and_black_l | apply pixel_and_black_r ].
Qed.

Lemma segment_object_complement_witness :
  zip_with (zip_with pixel_or)
    (segment_object (fun p => p) [[(100, 60, 40); (10, 60, 40)]] 97 107 true)
    (segment_object (fun p => p) [[(100, 60, 40); (10, 60, 40)]] 97 107 false)
    = [[(100, 60, 40); (10, 60, 40)]] /\
  zip_with (zip_with pixel_and)
    (segment_object (fun p => p) [[(100, 60, 40); (10, 60, 40)]] 97 107 true)
    (segment_object (fun p => p) [[(100, 60, 40); (10, 60, 40)]] 97 107 false)
    = map (map (fun _ => black)) [[(100, 60, 40); (10, 60, 40)]].
Proof.
  apply (segment_object_complement (fun p => p)
           [[(100, 60, 40); (10, 60, 40)]] 97 107); lia.
Defined.

(** ** [find_vertices]: which contour is taken *)

Section LargestContour.

Context {Image Contour : Type}.
Variable findContours : Image -> list Contour.
Variable contourArea : Contour -> Q.
Variable arcLength : Contour -> R.
Variable approxPolyDP : Contour -> R -> list Point.

Let round := largest_step Contour contourArea.

Lemma largest_step_cases (st : Q * option Contour) (c : Contour) :
  ((fst st < contourArea c)%Q /\ round st c = (contourArea c, Some c)) \/
  ((contourArea c <= fst st)%Q /\ round st c = st).
Proof.
  unfold round, largest_step.
  destruct (contourArea c ?= fst st)%Q eqn:Ec.
  - right. apply Qeq_alt in Ec. split; [ | reflexivity ].
    rewrite Ec. apply Qle_refl.
  - right. apply Qlt_alt in Ec. split; [ | reflexivity ].
    now apply Qlt_le_weak.
  - left. apply Qgt_alt in Ec. split; [ exact Ec | reflexivity ].
Qed.

(** The loop either leaves its state alone, every area being at most
    [area_max], or ends on the first contour of largest area. *)
Lemma largest_loop_first (contours : list Contour)
    (st : Q * option Contour) :
  (fold_left round contours st = st /\
   forall c, In c contours -> (contourArea c <= fst st)%Q) \/
  (exists pre big post,
      contours = pre ++ big :: post /\
      fold_left round contours st = (contourArea big, Some big) /\
      (fst st < contourArea big)%Q /\
      (forall c, In c pre -> (contourArea c < contourArea big)%Q) /\
      (forall c, In c post -> (contourArea c <= contourArea big)%Q)).
Proof.
  revert st. induction contours as [ | c rest IH ]; intros st.
  - left. split; [ reflexivity | contradiction ].
  - simpl fold_left.
    destruct (largest_step_cases st c) as [[Hlt E] | [Hle E]]; rewrite E.
    + right.
      destruct (IH (contourArea c, Some c))
        as [[Es Hall] | (pre & big & post & Ec & Ef & Hb & Hpre & Hpost)].
      * exists [], c, rest. simpl in Hall.
        repeat split; auto. contradiction.
      * exists (c :: pre), big, post. simpl in Hb.
        split; [ now rewrite Ec | ].
        split; [ exact Ef | ].
        split; [ eapply Qlt_trans; eassumption | ].
        split; [ | exact Hpost ].
        intros c' [<- | Hin]; [ exact Hb | now apply Hpre ].
    + destruct (IH st)
        as [[Es Hall] | (pre & big & post & Ec & Ef & Hb & Hpre & Hpost)].
      * left. split; [ exact Es | ].
        intros c' [<- | Hin]; [ exact Hle | now apply Hall ].
      * right. exists (c :: pre), big, post.
        split; [ now rewrite Ec | ].
        split; [ exact Ef | ].
        split; [ exact Hb | ].
        split; [ | exact Hpost ].
        intros c' [<- | Hin];
          [ eapply Qle_lt_trans; eassumption | now apply Hpre ].
Qed.

(** X3.  When the image has at least one contour (and areas are not
    negative), [find_vertices] returns the polygon that [approxPolyDP]
    makes, with a tolerance of a tenth of the perimeter, of the first
    contour of largest area: every contour before it is strictly
    smaller and no contour after it is larger. *)
Theorem find_vertices_first_largest (image : Image) :
  findContours image <> [] ->
  (forall c, In c (findContours image) -> (0 <= contourArea c)%Q) ->
  exists pre big post,
    findContours image = pre ++ big :: post /\
    (forall c, In c pre -> (contourArea c < contourArea big)%Q) /\
    (forall c, In c post -> (contourArea c <= contourArea big)%Q) /\
    find_vertices Image Contour findContours contourArea arcLength
      approxPolyDP image =
    Returns (approxPolyDP big (0.1 * arcLength big)%R).
Proof.
  intros Hne Hpos. unfold find_vertices, largest_contour. fold round.
  destruct (largest_loop_first (findContours image) ((-1)%Q, None))
    as [[_ Hall] | (pre & big & post & Ec & Ef & _ & Hpre & Hpost)].
  - exfalso. destruct (findContours image) as [ | c rest ]; [ congruence | ].
    specialize (Hall c (or_introl eq_refl)).
    specialize (Hpos c (or_introl eq_refl)).
    simpl in Hall.
    assert (Habs : (0 <= -1)%Q) by (eapply Qle_trans; eassumption).
    unfold Qle in Habs. simpl in Habs. lia.
  - exists pre, big, post. rewrite Ef. simpl. auto.
Qed.

End LargestContour.

(** Three contours given by their areas, two of them of the largest
    area 7: the first of the two is taken. *)
Lemma find_vertices_first_largest_witness :
  exists pre big post,
    [3%Q; 7%Q; 7%Q] = pre ++ big :: post /\
    (forall c, In c pre -> (c < big)%Q) /\
    (forall c, In c post -> (c <= big)%Q) /\
    find_vertices unit Q (fun _ => [3%Q; 7%Q; 7%Q]) (fun c => c)
      (fun _ => 10%R) (fun c _ => [(Qnum c, 0)]) tt =
    Returns [(Qnum big, 0)].
Proof.
  apply (find_vertices_first_largest (fun _ : unit => [3%Q; 7%Q; 7%Q])
           (fun c => c) (fun _ => 10%R) (fun c _ => [(Qnum c, 0)]) tt).
  - discriminate.
  - intros c [<- | [<- | [<- | []]]]; unfold Qle; simpl; lia.
Defined.

(** ** [order_points] and [warp_image] on well-formed corners *)

Lemma in_upright_rectangle (x0 y0 x1 y1 : Z) (p : Point) :
  In p (upright_rectangle x0 y0 x1 y1) ->
  p = (x0, y0) \/ p = (x1, y0) \/ p = (x1, y1) \/ p = (x0, y1).
Proof.
  unfold upright_rectangle. simpl. intuition.
Qed.

Lemma order_points_of_rectangle (x0 y0 x1 y1 : Z) (pts : list Point) :
  x0 < x1 -> y0 < y1 ->
  Permutation (upright_rectangle x0 y0 x1 y1) pts ->
  order_points pts = Some (upright_rectangle x0 y0 x1 y1).
Proof.
  intros Hx Hy HP.
  assert (Hne : pts <> []).
  { intros ->. apply Permutation_sym, Permutation_nil in HP. discriminate. }
  destruct (order_points_attains pts Hne)
    as (tl & tr & br & bl & E & [Itl Mtl] & [Itr Mtr] & [Ibr Mbr] & [Ibl Mbl]).
  assert (Hin : forall p, In p (upright_rectangle x0 y0 x1 y1) -> In p pts).
  { intros p. now apply Permutation_in. }
  assert (Hback : forall p, In p pts ->
            p = (x0, y0) \/ p = (x1, y0) \/ p = (x1, y1) \/ p = (x0, y1)).
  { intros p Hp. apply in_upright_rectangle.
    apply Permutation_in with pts; [ now apply Permutation_sym | exact Hp ]. }
  assert (C1 : In (x0, y0) pts) by (apply Hin; simpl; tauto).
  assert (C2 : In (x1, y0) pts) by (apply Hin; simpl; tauto).
  assert (C3 : In (x1, y1) pts) by (apply Hin; simpl; tauto).
  assert (C4 : In (x0, y1) pts) by (apply Hin; simpl; tauto).
  specialize (Mtl _ C1). specialize (Mtr _ C2).
  specialize (Mbr _ C3). specialize (Mbl _ C4).
  rewrite E. unfold upright_rectangle.
  destruct (Hback _ Itl) as [-> | [-> | [-> | ->]]];
    unfold coord_sum, px, py in Mtl; simpl in Mtl; try lia.
  destruct (Hback _ Itr) as [-> | [-> | [-> | ->]]];
    unfold coord_diff, px, py in Mtr; simpl in Mtr; try lia.
  destruct (Hback _ Ibr) as [-> | [-> | [-> | ->]]];
    unfold coord_sum, px, py in Mbr; simpl in Mbr; try lia.
  destruct (Hback _ Ibl) as [-> | [-> | [-> | ->]]];
    unfold coord_diff, px, py in Mbl; simpl in Mbl; try lia.
  reflexivity.
Qed.

(** X4.  Given in any order, the four corners of an upright rectangle
    come out of [order_points] as top-left, top-right, bottom-right,
    bottom-left. *)
Theorem order_points_rectangle (x0 y0 x1 y1 : Z) (pts : list Point) :
  x0 < x1 -> y0 < y1 ->
  Permutation [(x0, y0); (x1, y0); (x1, y1); (x0, y1)] pts ->
  order_points pts = Some [(x0, y0); (x1, y0); (x1, y1); (x0, y1)].
Proof.
  exact (order_points_of_rectangle x0 y0 x1 y1 pts).
Qed.

Lemma order_points_rectangle_witness :
  order_points [(90, 60); (10, 20); (10, 60); (90, 20)] =
  Some [(10, 20); (90, 20); (90, 60); (10, 60)].
Proof.
  apply (order_points_rectangle 10 20 90 60); [ lia | lia | ].
  apply perm_trans with [(90, 60); (10, 20); (90, 20); (10, 60)].
  - apply perm_trans with [(10, 20); (90, 60); (90, 20); (10, 60)].
    + apply perm_skip, perm_swap.
    + apply perm_swap.
  - do 2 apply perm_skip. apply perm_swap.
Defined.

Lemma order_points_fixed (pts o : list Point) :
  unique_extremes pts -> order_points pts = Some o ->
  order_points o = Some o.
Proof.
  intros (U1 & U2 & U3 & U4) E.
  assert (Hne : pts <> []) by (intros ->; discriminate).
  destruct (order_points_attains pts Hne)
    as (tl & tr & br & bl & E' & Htl & Htr & Hbr & Hbl).
  rewrite E in E'. injection E' as ->.
  destruct (order_points_attains [tl; tr; br; bl] ltac:(discriminate))
    as (tl' & tr' & br' & bl' & E'' & Htl' & Htr' & Hbr' & Hbl').
  rewrite E''.
  assert (Hsub : forall p, In p [tl; tr; br; bl] -> In p pts).
  { intros p [<- | [<- | [<- | [<- | []]]]];
      [ apply Htl | apply Htr | apply Hbr | apply Hbl ]. }
  assert (Atl : attains_min coord_sum pts tl').
  { destruct Htl' as [I M]. split; [ now apply Hsub | ].
    intros q Hq. specialize (M tl ltac:(simpl; tauto)).
    destruct Htl as [_ M0]. specialize (M0 q Hq). lia. }
  assert (Atr : attains_min coord_diff pts tr').
  { destruct Htr' as [I M]. split; [ now apply Hsub | ].
    intros q Hq. specialize (M tr ltac:(simpl; tauto)).
    destruct Htr as [_ M0]. specialize (M0 q Hq). lia. }
  assert (Abr : attains_max coord_sum pts br').
  { destruct Hbr' as [I M]. split; [ now apply Hsub | ].
    intros q Hq. specialize (M br ltac:(simpl; tauto)).
    destruct Hbr as [_ M0]. specialize (M0 q Hq). lia. }
  assert (Abl : attains_max coord_diff pts bl').
  { destruct Hbl' as [I M]. split; [ now apply Hsub | ].
    intros q Hq. specialize (M bl ltac:(simpl; tauto)).
    destruct Hbl as [_ M0]. specialize (M0 q Hq). lia. }
  now rewrite (U1 tl' tl), (U3 tr' tr), (U2 br' br), (U4 bl' bl).
Qed.

(** X5.  Ordering corners that are already ordered changes nothing,
    provided that the smallest and the largest sum and difference each
    belong to one point only: the second call of [order_points], inside
    [warp_image], keeps what the first call in the main program
    produced. *)
Theorem order_points_idempotent (pts o : list Point) :
  unique_extremes pts -> order_points pts = Some o ->
  order_points o = Some o /\
  warp_image o = warp_image pts.
Proof.
  intros U E. pose proof (order_points_fixed pts o U E) as E'.
  split; [ exact E' | ].
  unfold warp_image. now rewrite E, E'.
Qed.

Lemma order_points_idempotent_witness :
  order_points [(12, 9); (208, 14); (203, 151); (7, 147)] =
    Some [(12, 9); (208, 14); (203, 151); (7, 147)] /\
  warp_image [(12, 9); (208, 14); (203, 151); (7, 147)] =
    warp_image [(203, 151); (12, 9); (7, 147); (208, 14)].
Proof.
  apply (order_points_idempotent
           [(203, 151); (12, 9); (7, 147); (208, 14)]
           [(12, 9); (208, 14); (203, 151); (7, 147)]).
  - repeat split;
      solve_unique_extreme [(203, 151); (12, 9); (7, 147); (208, 14)].
  - reflexivity.
Defined.

Lemma sqrt_sq_dist_horizontal (a b y y' : Z) :
  y = y' -> Z.sqrt (sq_dist (a, y) (b, y')) = Z.abs (a - b).
Proof.
  intros ->. unfold sq_dist, px, py. simpl fst. simpl snd.
  replace ((a - b) ^ 2 + (y' - y') ^ 2) with (Z.abs (a - b) * Z.abs (a - b))
    by nia.
  apply Z.sqrt_square, Z.abs_nonneg.
Qed.

Lemma sqrt_sq_dist_vertical (x x' a b : Z) :
  x = x' -> Z.sqrt (sq_dist (x, a) (x', b)) = Z.abs (a - b).
Proof.
  intros ->. unfold sq_dist, px, py. simpl fst. simpl snd.
  replace ((x' - x') ^ 2 + (a - b) ^ 2) with (Z.abs (a - b) * Z.abs (a - b))
    by nia.
  apply Z.sqrt_square, Z.abs_nonneg.
Qed.

(** X6.  For the corners of an upright rectangle, in any order,
    [warp_image] asks for an output image as wide as the difference of
    the two abscissas and as high as the difference of the two
    ordinates (one pixel less, each way, than the number of pixel
    columns and rows the rectangle covers), and sends the four corners
    to the corners of that image. *)
Theorem warp_image_rectangle (x0 y0 x1 y1 : Z) (pts : list Point) :
  x0 < x1 -> y0 < y1 ->
  Permutation [(x0, y0); (x1, y0); (x1, y1); (x0, y1)] pts ->
  warp_image pts =
  Some {| rectangle := [(x0, y0); (x1, y0); (x1, y1); (x0, y1)];
          destination := [ (0, 0); (x1 - x0 - 1, 0);
                           (x1 - x0 - 1, y1 - y0 - 1);
                           (0, y1 - y0 - 1) ];
          max_width := x1 - x0;
          max_height := y1 - y0 |}.
Proof.
  intros Hx Hy HP. rewrite warp_image_sq_eq. unfold warp_image_sq.
  rewrite (order_points_of_rectangle x0 y0 x1 y1 pts Hx Hy HP).
  unfold upright_rectangle.
  rewrite !sqrt_sq_dist_horizontal, !sqrt_sq_dist_vertical by reflexivity.
  replace (Z.max (Z.abs (x1 - x0)) (Z.abs (x1 - x0))) with (x1 - x0) by lia.
  replace (Z.max (Z.abs (y0 - y1)) (Z.abs (y0 - y1))) with (y1 - y0) by lia.
  reflexivity.
Qed.

Lemma warp_image_rectangle_witness :
  warp_image [(90, 60); (10, 20); (10, 60); (90, 20)] =
  Some {| rectangle := [(10, 20); (90, 20); (90, 60); (10, 60)];
          destination := [ (0, 0); (90 - 10 - 1, 0);
                           (90 - 10 - 1, 60 - 20 - 1);
                           (0, 60 - 20 - 1) ];
          max_width := 90 - 10;
          max_height := 60 - 20 |}.
Proof.
  apply (warp_image_rectangle 10 20 90 60); [ lia | lia | ].
  apply perm_trans with [(90, 60); (10, 20); (90, 20); (10, 60)].
  - apply perm_trans with [(10, 20); (90, 60); (90, 20); (10, 60)].
    + apply perm_skip, perm_swap.
    + apply perm_swap.
  - do 2 apply perm_skip. apply perm_swap.
Defined.

Lemma sqrt_sq_dist_zero (a b : Point) :
  Z.sqrt (sq_dist a b) = 0 <-> a = b.
Proof.
  rewrite <- sq_dist_zero.
  pose proof (sq_dist_nonneg a b) as Hn.
  pose proof (Z.sqrt_pos (sq_dist a b)) as Hp.
  pose proof (Z.sqrt_nonneg (sq_dist a b)) as Hs.
  split; intros H.
  - lia.
  - rewrite H. reflexivity.
Qed.

(** X7.  [warp_image] never refuses corners: for any points, at least
    one, it returns a plan whose width and height are not negative.
    The width is zero exactly when the top corners coincide and the
    bottom corners coincide, and the height is zero exactly when the
    right corners coincide and the left corners coincide; the
    destination then has corners at -1. *)
Theorem warp_image_degenerate (points : list Point) :
  points <> [] ->
  exists (tl tr br bl : Point) (plan : warp_plan),
    order_points points = Some [tl; tr; br; bl] /\
    warp_image points = Some plan /\
    0 <= max_width plan /\ 0 <= max_height plan /\
    (max_width plan = 0 <-> tr = tl /\ br = bl) /\
    (max_height plan = 0 <-> tr = br /\ tl = bl) /\
    (max_width plan = 0 -> max_height plan = 0 ->
     destination plan = [(0, 0); (-1, 0); (-1, -1); (0, -1)]).
Proof.
  intros Hne.
  destruct (order_points_attains points Hne)
    as (tl & tr & br & bl & E & _).
  exists tl, tr, br, bl.
  rewrite warp_image_sq_eq. unfold warp_image_sq. rewrite E.
  eexists. split; [ reflexivity | ]. split; [ reflexivity | ].
  cbn [max_width max_height destination].
  pose proof (Z.sqrt_nonneg (sq_dist br bl)).
  pose proof (Z.sqrt_nonneg (sq_dist tr tl)).
  pose proof (Z.sqrt_nonneg (sq_dist tr br)).
  pose proof (Z.sqrt_nonneg (sq_dist tl bl)).
  pose proof (sqrt_sq_dist_zero br bl).
  pose proof (sqrt_sq_dist_zero tr tl).
  pose proof (sqrt_sq_dist_zero tr br).
  pose proof (sqrt_sq_dist_zero tl bl).
  split; [ lia | ]. split; [ lia | ].
  split; [ | split ].
  - split.
    + intros Hz. split; [ apply H4 | apply H3 ]; lia.
    + intros [Ha Hb]. apply H4 in Ha. apply H3 in Hb. lia.
  - split.
    + intros Hz. split; [ apply H5 | apply H6 ]; lia.
    + intros [Ha Hb]. apply H5 in Ha. apply H6 in Hb. lia.
  - intros -> ->. reflexivity.
Qed.

Lemma warp_image_degenerate_witness :
  exists (tl tr br bl : Point) (plan : warp_plan),
    order_points [(5, 5); (5, 5); (5, 5); (5, 5)] = Some [tl; tr; br; bl] /\
    warp_image [(5, 5); (5, 5); (5, 5); (5, 5)] = Some plan /\
    0 <= max_width plan /\ 0 <= max_height plan /\
    (max_width plan = 0 <-> tr = tl /\ br = bl) /\
    (max_height plan = 0 <-> tr = br /\ tl = bl) /\
    (max_width plan = 0 -> max_height plan = 0 ->
     destination plan = [(0, 0); (-1, 0); (-1, -1); (0, -1)]).
Proof.
  apply (warp_image_degenerate [(5, 5); (5, 5); (5, 5); (5, 5)]).
  discriminate.
Defined.

(** ** [get_slope] and the order of the two ends *)

Lemma Qdiv_opp_opp (a b : Z) :
  b <> 0 ->
  (inject_Z a / inject_Z b == inject_Z (- a) / inject_Z (- b))%Q.
Proof.
  intros Hb. rewrite !inject_Z_opp. field.
  intros E. apply Hb. unfold Qeq in E. simpl in E. lia.
Qed.

(** X9.  On a line that is not vertical the slope does not depend on
    which end comes first; on a vertical line it does: the two orders
    give opposite slopes, [y2 - y1] and [y1 - y2]. *)
Theorem get_slope_swap (x1 y1 x2 y2 : Z) :
  (x1 <> x2 ->
   exists q q' : Q,
     get_slope x1 y1 x2 y2 = Fin q /\ get_slope x2 y2 x1 y1 = Fin q' /\
     (q == q')%Q) /\
  (exists q q' : Q,
     get_slope x1 y1 x1 y2 = Fin q /\ get_slope x1 y2 x1 y1 = Fin q' /\
     (q == inject_Z (y2 - y1))%Q /\ (q' == - q)%Q).
Proof.
  split.
  - intros Hx. rewrite !get_slope_finite.
    destruct (Z.eqb_spec x2 x1) as [E | _]; [ congruence | ].
    destruct (Z.eqb_spec x1 x2) as [E | _]; [ congruence | ].
    do 2 eexists. split; [ reflexivity | ]. split; [ reflexivity | ].
    rewrite (Qdiv_opp_opp (y2 - y1) (x2 - x1)) by lia.
    replace (- (y2 - y1)) with (y1 - y2) by lia.
    replace (- (x2 - x1)) with (x1 - x2) by lia.
    reflexivity.
  - rewrite !get_slope_finite, Z.eqb_refl.
    replace (x1 + 1 - x1) with 1 by lia.
    do 2 eexists. split; [ reflexivity | ]. split; [ reflexivity | ].
    split; [ apply inject_Z_div_1 | ].
    rewrite !inject_Z_div_1, <- inject_Z_opp.
    replace (- (y2 - y1)) with (y1 - y2) by lia. reflexivity.
Qed.

Lemma get_slope_swap_witness :
  exists q q' : Q,
    get_slope 1 1 5 3 = Fin q /\ get_slope 5 3 1 1 = Fin q' /\ (q == q')%Q.
Proof.
  destruct (get_slope_swap 1 1 5 3) as [H _].
  apply H. lia.
Defined.

(** ** The tip of the pointer and the order of the corners *)

(** X10.  On three corners whose coordinates lie between 0 and 32767,
    when one edge of the triangle is strictly shorter than the other
    two, the tip and the middle of the base do not depend on the order
    in which the three corners are given. *)
Theorem pointer_tip_any_order (p1 p2 p3 : Point) :
  int32_safe p1 -> int32_safe p2 -> int32_safe p3 ->
  sq_dist p1 p2 < sq_dist p1 p3 ->
  sq_dist p1 p2 < sq_dist p2 p3 ->
  let t := {| xpos := px p3; ypos := py p3;
              mid_x := (px p1 + px p2) ÷ 2;
              mid_y := (py p1 + py p2) ÷ 2 |} in
  pointer_tip p1 p2 p3 = t /\ pointer_tip p2 p1 p3 = t /\
  pointer_tip p1 p3 p2 = t /\ pointer_tip p3 p1 p2 = t /\
  pointer_tip p2 p3 p1 = t /\ pointer_tip p3 p2 p1 = t.
Proof.
  intros S1 S2 S3 H13 H23 t. subst t.
  pose proof (sq_dist_sym p2 p1) as Y21.
  pose proof (sq_dist_sym p3 p1) as Y31.
  pose proof (sq_dist_sym p3 p2) as Y32.
  pose proof (Z.add_comm (px p2) (px p1)) as Cx.
  pose proof (Z.add_comm (py p2) (py p1)) as Cy.
  repeat split.
  - destruct (pointer_tip_safe p1 p2 p3 S1 S2 S3)
      as [(E & Ha & Hb) | [(E & Ha & Hb) | (E & Ha & Hb)]];
      try lia; rewrite E; reflexivity.
  - destruct (pointer_tip_safe p2 p1 p3 S2 S1 S3)
      as [(E & Ha & Hb) | [(E & Ha & Hb) | (E & Ha & Hb)]];
      try lia; rewrite E; unfold tip_over_base; now rewrite Cx, Cy.
  - destruct (pointer_tip_safe p1 p3 p2 S1 S3 S2)
      as [(E & Ha & Hb) | [(E & Ha & Hb) | (E & Ha & Hb)]];
      try lia; rewrite E; reflexivity.
  - destruct (pointer_tip_safe p3 p1 p2 S3 S1 S2)
      as [(E & Ha & Hb) | [(E & Ha & Hb) | (E & Ha & Hb)]];
      try lia; rewrite E; unfold tip_over_base; now rewrite Cx, Cy.
  - destruct (pointer_tip_safe p2 p3 p1 S2 S3 S1)
      as [(E & Ha & Hb) | [(E & Ha & Hb) | (E & Ha & Hb)]];
      try lia; rewrite E; unfold tip_over_base; now rewrite Cx, Cy.
  - destruct (pointer_tip_safe p3 p2 p1 S3 S2 S1)
      as [(E & Ha & Hb) | [(E & Ha & Hb) | (E & Ha & Hb)]];
      try lia; rewrite E; reflexivity.
Qed.

Lemma pointer_tip_any_order_witness :
  let t := {| xpos := 45; ypos := 20;
              mid_x := (40 + 50) ÷ 2; mid_y := (60 + 60) ÷ 2 |} in
  pointer_tip (40, 60) (50, 60) (45, 20) = t /\
  pointer_tip (50, 60) (40, 60) (45, 20) = t /\
  pointer_tip (40, 60) (45, 20) (50, 60) = t /\
  pointer_tip (45, 20) (40, 60) (50, 60) = t /\
  pointer_tip (50, 60) (45, 20) (40, 60) = t /\
  pointer_tip (45, 20) (50, 60) (40, 60) = t.
Proof.
  apply (pointer_tip_any_order (40, 60) (50, 60) (45, 20));
    first [ apply int32_safe_intro; lia | reflexivity ].
Defined.

(** ** The side of the tip and the half of the compass *)

Lemma pointer_dirr_bound (xpos ypos mid_x mid_y map_width : Z) :
  exists a : R,
    pointer_dirr xpos ypos mid_x mid_y map_width = Deg a /\
    (0 <= a <= 90)%R.
Proof.
  unfold pointer_dirr.
  destruct (angle_tangent_cases xpos ypos mid_x mid_y map_width)
    as [[q E] | [E | E]]; simpl in E; rewrite E; simpl.
  - exists (Rabs (atan (Q2R q)) * (180 / PI))%R.
    pose proof (atan_degrees_bound (Q2R q)). split; [ reflexivity | lra ].
  - exists (Rabs (PI / 2) * (180 / PI))%R.
    pose proof right_angle_degrees. split; [ reflexivity | lra ].
  - exists (Rabs (PI / 2) * (180 / PI))%R.
    pose proof right_angle_degrees. split; [ reflexivity | lra ].
Qed.

Lemma hdg_by_side (xpos ypos mid_x mid_y map_width : Z) :
  exists b : R,
    hdg xpos ypos mid_x mid_y map_width = Deg b /\
    (mid_x <= xpos -> (0 <= b <= 90)%R) /\
    (xpos < mid_x -> (180 <= b <= 360)%R).
Proof.
  destruct (pointer_dirr_bound xpos ypos mid_x mid_y map_width)
    as (a & Ea & Ha).
  eexists. split; [ apply hdg_as_sum, Ea | ].
  unfold quadrant_correction.
  destruct (Z.gtb_spec mid_x xpos) as [Hl | Hr].
  - split; [ lia | intros _ ].
    destruct (mid_y <? ypos); [ lra | ].
    destruct (flt0 _); lra.
  - split; [ intros _; lra | lia ].
Qed.

(** X11.  The side of the tip decides the half of the compass: a tip
    that is not left of the middle of the base always gets a heading
    between 0 and 90, whether it points up or down, and a tip left of
    the middle always gets a heading between 180 and 360. *)
Theorem hdg_half_plane (xpos ypos mid_x mid_y map_width : Z) :
  exists b : R,
    hdg xpos ypos mid_x mid_y map_width = Deg b /\
    (mid_x <= xpos -> (0 <= b <= 90)%R) /\
    (xpos < mid_x -> (180 <= b <= 360)%R).
Proof.
  exact (hdg_by_side xpos ypos mid_x mid_y map_width).
Qed.

Lemma pointer_tip_is_corner (p1 p2 p3 : Point) :
  exists apex : Point,
    In apex [p1; p2; p3] /\
    xpos (pointer_tip p1 p2 p3) = px apex /\
    ypos (pointer_tip p1 p2 p3) = py apex.
Proof.
  unfold pointer_tip.
  destruct (f64_eq_dec _ _); [ | destruct (f64_eq_dec _ _) ].
  - exists p3. simpl. tauto.
  - exists p2. simpl. tauto.
  - exists p1. simpl. tauto.
Qed.

(** ** The position outside the map *)

(** X12.  The ordinate of the position is never negative, and for a
    tip below the bottom edge it is not what its place would give: the
    absolute value folds it back, so that tips at the same distance
    above and below the bottom edge get the same ordinate. *)
Theorem position_mirror (xpos ypos d map_width map_height : Z) :
  0 < map_height ->
  snd (position xpos (map_height + d) map_width map_height) =
    snd (position xpos (map_height - d) map_width map_height) /\
  exists q : Q,
    snd (position xpos ypos map_width map_height) = Fin q /\ (0 <= q)%Q.
Proof.
  intros Hh. unfold position. cbn [snd].
  split.
  - f_equal. lia.
  - rewrite int_true_divide_nonzero by lia.
    eexists. split; [ reflexivity | ].
    apply Qle_shift_div_l.
    + change (inject_Z 0 < inject_Z map_height)%Q. now rewrite <- Zlt_Qlt.
    + rewrite Qmult_0_l. change (inject_Z 0 <= inject_Z (Z.abs (ypos - map_height)))%Q.
      rewrite <- Zle_Qle. apply Z.abs_nonneg.
Qed.

Lemma position_mirror_witness :
  snd (position 30 (80 + 25) 100 80) = snd (position 30 (80 - 25) 100 80) /\
  exists q : Q, snd (position 30 105 100 80) = Fin q /\ (0 <= q)%Q.
Proof.
  apply (position_mirror 30 105 25 100 80). lia.
Defined.

(** ** The main program *)

Section MainFacts.

Variable imread : string -> option image.
Variable cvt : pixel -> pixel.
Variable Contour : Type.
Variable findContours : image -> list Contour.
Variable contourArea : Contour -> Q.
Variable arcLength : Contour -> R.
Variable approxPolyDP : Contour -> R -> list Point.
Variable warpPerspective : image -> warp_plan -> option image.

Let run := main imread cvt Contour findContours contourArea arcLength
             approxPolyDP warpPerspective.
Let after_reading := locate cvt Contour findContours contourArea arcLength
                       approxPolyDP warpPerspective.
Let polygon := vertices_of Contour findContours contourArea arcLength
                 approxPolyDP.

(** Once the image is read the script ends with a traceback or with
    its three lines. *)
Lemma locate_ends (im_file : string) (im : image) :
  (exists e, after_reading im_file im = Traceback e) \/
  (exists o, after_reading im_file im = Output o).
Proof.
  unfold after_reading, locate.
  repeat match goal with
         | |- context [match ?x with _ => _ end] => destruct x
         end; eauto.
Qed.

(** X13.  The script prints its usage message and stops with status 1
    exactly when it is not given one argument; nothing is read then. *)
Theorem main_usage (prog : string) (args : list string) :
  run prog args = Usage prog <-> length args <> 1%nat.
Proof.
  unfold run, main.
  destruct args as [ | f [ | g rest ] ]; simpl.
  - split; [ intros _; lia | reflexivity ].
  - split; [ | lia ].
    destruct (imread f) as [ im | ]; [ | discriminate ].
    destruct (locate_ends f im) as [[e E] | [o E]];
      unfold after_reading in E; rewrite E; discriminate.
  - split; [ intros _; lia | reflexivity ].
Qed.

(** X14.  The script reports "File not found" and stops with status 1
    exactly when it is given one argument and the image cannot be
    read. *)
Theorem main_file_not_found (prog : string) (args : list string) :
  run prog args = FileNotFound <->
  exists im_file, args = [im_file] /\ imread im_file = None.
Proof.
  unfold run, main.
  destruct args as [ | f [ | g rest ] ].
  - split; [ discriminate | intros (x & E & _); discriminate ].
  - destruct (imread f) as [ im | ] eqn:Ef.
    + split.
      * destruct (locate_ends f im) as [[e E] | [o E]];
          unfold after_reading in E; rewrite E; discriminate.
      * intros (x & E & N). injection E as <-. congruence.
    + split; [ intros _; now exists f | reflexivity ].
  - split; [ discriminate | intros (x & E & _); discriminate ].
Qed.

(** X15.  An image in which the masked picture has no contour, or in
    which the polygon of the map has not four corners, stops the script
    with a traceback: the [UnboundLocalError] of [find_vertices] in the
    first case, the [ValueError] of [reshape] in the second.  Nothing
    is printed. *)
Theorem main_bad_scene (prog im_file : string) (im : image) :
  imread im_file = Some im ->
  (findContours (segment_object cvt im 97 107 true) = [] ->
   run prog [im_file] =
     Traceback (InFindVertices (UnboundLocalError "big_cntr"))) /\
  (forall vertices,
      polygon (segment_object cvt im 97 107 true) = Returns vertices ->
      length vertices <> 4%nat ->
      run prog [im_file] = Traceback ValueError).
Proof.
  intros Er. unfold run, main. rewrite Er. unfold locate. split.
  - intros E. unfold vertices_of, find_vertices. rewrite E. reflexivity.
  - intros vertices Ev Hl. unfold polygon in Ev. rewrite Ev.
    destruct (Nat.eqb_spec (length vertices) 4) as [E | _];
      [ contradiction | reflexivity ].
Qed.

(** X16.  Whenever the script prints its three lines, it was given one
    argument naming a readable image, the polygon of the map had four
    corners, the polygon found in the warped image had at least three
    and the polygon of the pointer had exactly three.  The file name
    printed is the argument, the position is that of one of the three
    corners of the pointer, scaled by the coordinates of the third
    corner found in the warped image, and the heading is a number
    between 0 and 90 or between 180 and 360. *)
Theorem main_output (prog : string) (args : list string) (o : printed) :
  run prog args = Output o ->
  exists (im_file : string) (im warped : image)
         (vertices ordered warpedPoints : list Point)
         (plan : warp_plan) (corner p1 p2 p3 apex : Point) (b : R),
    args = [im_file] /\ imread im_file = Some im /\
    polygon (segment_object cvt im 97 107 true) = Returns vertices /\
    length vertices = 4%nat /\
    order_points vertices = Some ordered /\
    warp_image ordered = Some plan /\
    warpPerspective im plan = Some warped /\
    polygon warped = Returns warpedPoints /\
    (3 <= length warpedPoints)%nat /\
    nth_error warpedPoints 2 = Some corner /\
    polygon (segment_object cvt warped 160 179 false) =
      Returns [p1; p2; p3] /\
    In apex [p1; p2; p3] /\
    filename o = im_file /\
    POSITION o = position (px apex) (py apex) (px corner) (py corner) /\
    BEARING o = Deg b /\
    ((0 <= b <= 90) \/ (180 <= b <= 360))%R.
Proof.
  unfold run, main.
  destruct args as [ | f [ | g rest ] ]; try discriminate.
  destruct (imread f) as [ im | ] eqn:Er; [ | discriminate ].
  unfold locate. fold polygon.
  destruct (polygon (segment_object cvt im 97 107 true))
    as [ vertices | e ] eqn:Ev; [ | discriminate ].
  destruct (Nat.eqb_spec (length vertices) 4) as [El | _];
    [ | discriminate ].
  cbn [negb].
  destruct (order_points vertices) as [ ordered | ] eqn:Eo;
    [ | discriminate ].
  destruct (warp_image ordered) as [ plan | ] eqn:Ew; [ | discriminate ].
  destruct (warpPerspective im plan) as [ warped | ] eqn:Ep;
    [ | discriminate ].
  destruct (polygon warped) as [ warpedPoints | e ] eqn:Ewp;
    [ | discriminate ].
  destruct (nth_error warpedPoints 2) as [ corner | ] eqn:Ec;
    [ | discriminate ].
  destruct (polygon (segment_object cvt warped 160 179 false))
    as [ [ | p1 [ | p2 [ | p3 [ | p4 rest ] ] ] ] | e ] eqn:Et;
    try discriminate.
  intros E. injection E as <-.
  destruct (pointer_tip_is_corner p1 p2 p3) as (apex & Hin & Hx & Hy).
  destruct (hdg_by_side
              (xpos (pointer_tip p1 p2 p3)) (ypos (pointer_tip p1 p2 p3))
              (mid_x (pointer_tip p1 p2 p3)) (mid_y (pointer_tip p1 p2 p3))
              (px corner)) as (b & Eb & Hside).
  assert (Hb : ((0 <= b <= 90) \/ (180 <= b <= 360))%R).
  { destruct Hside as [Hr Hl].
    destruct (Z.le_gt_cases (mid_x (pointer_tip p1 p2 p3))
                (xpos (pointer_tip p1 p2 p3))); [ left | right ]; auto. }
  exists f, im, warped, vertices, ordered, warpedPoints, plan, corner,
         p1, p2, p3, apex, b.
  cbn [filename POSITION BEARING]. rewrite Hx, Hy in Eb |- *.
  repeat (split; [ first [ reflexivity | assumption ] | ]).
  split.
  - assert (nth_error warpedPoints 2 <> None) by congruence.
    apply nth_error_Some in H. lia.
  - repeat (split; [ first [ reflexivity | assumption ] | ]).
    exact Hb.
Qed.

End MainFacts.

Lemma main_bad_scene_witness :
  scene_main (fun _ => []) "mapreader.py" ["map.png"%string] =
    Traceback (InFindVertices (UnboundLocalError "big_cntr")) /\
  scene_main scene_findContours_5 "mapreader.py" ["map.png"%string] =
    Traceback ValueError.
Proof.
  split.
  - destruct (main_bad_scene scene_imread (fun p => p) (list Point)
                (fun _ => []) (fun _ => 1%Q) (fun _ => 0%R) (fun c _ => c)
                scene_warpPerspective "mapreader.py" "map.png" []
                eq_refl) as [H _].
    apply H. reflexivity.
  - destruct (main_bad_scene scene_imread (fun p => p) (list Point)
                scene_findContours_5 (fun _ => 1%Q) (fun _ => 0%R)
                (fun c _ => c) scene_warpPerspective
                "mapreader.py" "map.png" [] eq_refl) as [_ H].
    apply (H [(12, 9); (208, 14); (203, 151); (100, 160); (7, 147)]).
    + reflexivity.
    + discriminate.
Defined.

Lemma scene_main_prints :
  scene_main scene_findContours "mapreader.py" ["map.png"%string] =
  Output
    {| filename := "map.png";
       POSITION :=
         position (xpos (pointer_tip (40, 60) (50, 60) (45, 20)))
                  (ypos (pointer_tip (40, 60) (50, 60) (45, 20))) 195 137;
       BEARING :=
         hdg (xpos (pointer_tip (40, 60) (50, 60) (45, 20)))
             (ypos (pointer_tip (40, 60) (50, 60) (45, 20)))
             (mid_x (pointer_tip (40, 60) (50, 60) (45, 20)))
             (mid_y (pointer_tip (40, 60) (50, 60) (45, 20))) 195 |}.
Proof. reflexivity. Qed.

Lemma main_output_witness :
  exists (im_file : string) (im warped : image)
         (vertices ordered warpedPoints : list Point)
         (plan : warp_plan) (corner p1 p2 p3 apex : Point) (b : R),
    ["map.png"%string] = [im_file] /\ scene_imread im_file = Some im /\
    vertices_of (list Point) scene_findContours (fun _ => 1%Q)
      (fun _ => 0%R) (fun c _ => c)
      (segment_object (fun p => p) im 97 107 true) = Returns vertices /\
    length vertices = 4%nat /\
    order_points vertices = Some ordered /\
    warp_image ordered = Some plan /\
    scene_warpPerspective im plan = Some warped /\
    vertices_of (list Point) scene_findContours (fun _ => 1%Q)
      (fun _ => 0%R) (fun c _ => c) warped = Returns warpedPoints /\
    (3 <= length warpedPoints)%nat /\
    nth_error warpedPoints 2 = Some corner /\
    vertices_of (list Point) scene_findContours (fun _ => 1%Q)
      (fun _ => 0%R) (fun c _ => c)
      (segment_object (fun p => p) warped 160 179 false) =
      Returns [p1; p2; p3] /\
    In apex [p1; p2; p3] /\
    "map.png"%string = im_file /\
    position (xpos (pointer_tip (40, 60) (50, 60) (45, 20)))
             (ypos (pointer_tip (40, 60) (50, 60) (45, 20))) 195 137 =
      position (px apex) (py apex) (px corner) (py corner) /\
    hdg (xpos (pointer_tip (40, 60) (50, 60) (45, 20)))
        (ypos (pointer_tip (40, 60) (50, 60) (45, 20)))
        (mid_x (pointer_tip (40, 60) (50, 60) (45, 20)))
        (mid_y (pointer_tip (40, 60) (50, 60) (45, 20))) 195 = Deg b /\
    ((0 <= b <= 90) \/ (180 <= b <= 360))%R.
Proof.
  exact (main_output scene_imread (fun p => p) (list Point)
           scene_findContours (fun _ => 1%Q) (fun _ => 0%R) (fun c _ => c)
           scene_warpPerspective "mapreader.py" ["map.png"%string] _
           scene_main_prints).
Defined.
